(** * MPPI planner ([src/planning/mm_planner.py]): model and properties

    The controller works on torch tensors of floating-point numbers.  The
    embedding keeps the structure of the code (the controller object with its
    mutable attributes, the order of the assignments, the exceptions raised
    on the way) and abstracts the arithmetic:

    - a tensor element is a [scalar]: an exact real number or one of the three
      IEEE special values (+inf, -inf, NaN).  The special values follow the
      IEEE rules ([inf - inf = NaN], [0 * inf = NaN], NaN is absorbing ...);
      finite values are exact, so rounding, overflow and underflow of finite
      results are not part of the model, and the two signed zeros are one.
      The one exception is the exponential of the weights, whose range
      decides whether a weight can be 0: [command_with] takes the
      exponential as an argument, and [torch_exp] is one with the range of
      a floating-point number;
    - a tensor is a nested list: [vec] (nu or K), [mat] (T x nu, K x nx),
      [batch] (K x T x nu);
    - the elementwise operations pair the entries of their operands; torch
      raises when the shapes do not conform, and the theorems carry the
      shapes as hypotheses ([wf]) instead.  The exceptions that a controller
      with conforming shapes can still meet are modelled: an empty horizon or
      sample batch, a zero temperature, [clamp] without bounds, and the
      views and the slice assignments of [get_rollouts];
    - the random draw [noise_dist.sample] is an argument of the operation
      that draws it, and [torch.inverse(noise_sigma)] an argument of the
      constructor;
    - the dynamics and cost boundaries are functions: they are pure and
      return a value. *)

From Stdlib Require Import Reals Lra List Arith Lia Bool.
Import ListNotations.

(** ** Scalars *)

Module Scalar.

Local Open Scope R_scope.

Inductive scalar : Type :=
| Fin (r : R)
| PInf
| NInf
| NaN.

Definition zero : scalar := Fin 0.
Definition one : scalar := Fin 1.

Definition is_finite (x : scalar) : Prop :=
  match x with Fin _ => True | _ => False end.

Definition is_nan (x : scalar) : Prop :=
  match x with NaN => True | _ => False end.

(** Order of the values that have one: NaN is not comparable. *)
Definition fle (x y : scalar) : Prop :=
  match x, y with
  | NaN, _ | _, NaN => False
  | NInf, _ => True
  | _, PInf => True
  | Fin a, Fin b => a <= b
  | _, _ => False
  end.

Definition fneg (x : scalar) : scalar :=
  match x with
  | Fin r => Fin (- r)
  | PInf => NInf
  | NInf => PInf
  | NaN => NaN
  end.

Definition fadd (x y : scalar) : scalar :=
  match x, y with
  | NaN, _ | _, NaN => NaN
  | Fin a, Fin b => Fin (a + b)
  | PInf, NInf | NInf, PInf => NaN
  | PInf, _ | _, PInf => PInf
  | NInf, _ | _, NInf => NInf
  end.

Definition fsub (x y : scalar) : scalar := fadd x (fneg y).

(** An infinity of sign [pos] times (or divided by) the finite [r]. *)
Definition inf_signed (pos : bool) : scalar := if pos then PInf else NInf.

Definition inf_times (pos : bool) (r : R) : scalar :=
  if Rlt_dec 0 r then inf_signed pos
  else if Rlt_dec r 0 then inf_signed (negb pos)
  else NaN.

Definition fmul (x y : scalar) : scalar :=
  match x, y with
  | NaN, _ | _, NaN => NaN
  | Fin a, Fin b => Fin (a * b)
  | PInf, Fin b => inf_times true b
  | NInf, Fin b => inf_times false b
  | Fin a, PInf => inf_times true a
  | Fin a, NInf => inf_times false a
  | PInf, PInf | NInf, NInf => PInf
  | PInf, NInf | NInf, PInf => NInf
  end.

(** Tensor division [x / y]: division by zero gives an infinity or NaN and
    raises nothing. *)
Definition fdiv (x y : scalar) : scalar :=
  match x, y with
  | NaN, _ | _, NaN => NaN
  | Fin a, Fin b =>
      if Req_dec_T b 0 then inf_times true a else Fin (a / b)
  | Fin _, _ => Fin 0
  | PInf, Fin b => if Rlt_dec b 0 then NInf else PInf
  | NInf, Fin b => if Rlt_dec b 0 then PInf else NInf
  | _, _ => NaN
  end.

Definition fabs (x : scalar) : scalar :=
  match x with
  | Fin r => Fin (Rabs r)
  | PInf | NInf => PInf
  | NaN => NaN
  end.

(** The exact exponential. *)
Definition fexp (x : scalar) : scalar :=
  match x with
  | Fin r => Fin (exp r)
  | PInf => PInf
  | NInf => Fin 0
  | NaN => NaN
  end.

(** Binary minimum and maximum as [torch.min] and [clamp] use them: a NaN
    operand gives NaN. *)
Definition fmin (x y : scalar) : scalar :=
  match x, y with
  | NaN, _ | _, NaN => NaN
  | NInf, _ | _, NInf => NInf
  | PInf, z | z, PInf => z
  | Fin a, Fin b => Fin (Rmin a b)
  end.

Definition fmax (x y : scalar) : scalar :=
  match x, y with
  | NaN, _ | _, NaN => NaN
  | PInf, _ | _, PInf => PInf
  | NInf, z | z, NInf => z
  | Fin a, Fin b => Fin (Rmax a b)
  end.

End Scalar.
Export Scalar.

(** ** Tensors *)

Module Tensor.

Definition vec := list scalar.
Definition mat := list vec.
Definition batch := list mat.

(** A tensor of rank 0, 1 or 2, for the arguments whose rank the code
    inspects ([noise_sigma], [state]). *)
Inductive tensor : Type :=
| T0 (x : scalar)
| T1 (v : vec)
| T2 (m : mat).

Inductive exn : Type :=
| IndexError
| RuntimeError
| ZeroDivisionError
| AttributeError.

Inductive result (A : Type) : Type :=
| Ok (a : A)
| Raise (e : exn).
Arguments Ok {A} a.
Arguments Raise {A} e.

Definition rbind {A B} (r : result A) (k : A -> result B) : result B :=
  match r with
  | Ok a => k a
  | Raise e => Raise e
  end.

Fixpoint map2 {A B C} (f : A -> B -> C) (l : list A) (l' : list B) : list C :=
  match l, l' with
  | a :: t, b :: t' => f a b :: map2 f t t'
  | _, _ => []
  end.

(** Elementwise operations on tensors of the same shape. *)
Definition vadd : vec -> vec -> vec := map2 fadd.
Definition vsub : vec -> vec -> vec := map2 fsub.
Definition vmul : vec -> vec -> vec := map2 fmul.
Definition madd : mat -> mat -> mat := map2 vadd.
Definition msub : mat -> mat -> mat := map2 vsub.
Definition mmul : mat -> mat -> mat := map2 vmul.

(** Python scalar times tensor, tensor divided by Python scalar. *)
Definition vscale (s : scalar) : vec -> vec := map (fmul s).
Definition mscale (s : scalar) : mat -> mat := map (vscale s).
Definition bscale (s : scalar) : batch -> batch := map (mscale s).
Definition bdiv (B : batch) (s : scalar) : batch :=
  map (map (map (fun x => fdiv x s))) B.
Definition babs : batch -> batch := map (map (map fabs)).

Definition zeros (n : nat) : vec := repeat zero n.
Definition zeros_like (m : mat) : mat := map (map (fun _ => zero)) m.

(** [torch.sum] of a vector, and of a matrix over both dimensions. *)
Definition fsum (v : vec) : scalar := fold_right fadd zero v.
Definition msum (m : mat) : scalar := fsum (map fsum m).

(** [torch.sum(m, dim=0)] of a matrix with [n] columns. *)
Definition sum_dim0 (n : nat) (m : mat) : vec := fold_right vadd (zeros n) m.

(** [torch.min] of a whole tensor: NaN propagates, an empty tensor is an
    error. *)
Definition tmin (v : vec) : result scalar :=
  match v with
  | [] => Raise RuntimeError
  | x :: xs => Ok (fold_left fmin xs x)
  end.

(** [m[:, t]]. *)
Definition column {A} (d : A) (t : nat) (m : list (list A)) : list A :=
  map (fun row => nth t row d) m.

(** [v @ M]: row vector times matrix. *)
Definition ncols (M : mat) : nat := length (hd [] M).
Definition vecmat (v : vec) (M : mat) : vec :=
  map (fun j => fsum (vmul v (column zero j M))) (seq 0 (ncols M)).
Definition bmatmul (B : batch) (M : mat) : batch :=
  map (map (fun v => vecmat v M)) B.

(** [torch.stack(ms, dim=1)] of a list of matrices of one shape. *)
Definition stack1 (ms : list mat) : result batch :=
  match ms with
  | [] => Raise RuntimeError
  | m0 :: _ => Ok (map (fun i => column [] i ms) (seq 0 (length m0)))
  end.

(** [torch.roll(U, -1, dims=0)]. *)
Definition roll_left {A} (l : list A) : list A :=
  match l with
  | [] => []
  | x :: xs => xs ++ [x]
  end.

(** The value [v] broadcast to a row of [n] entries. *)
Definition broadcast_vec (n : nat) (v : vec) : result vec :=
  if length v =? n then Ok v
  else if length v =? 1 then Ok (repeat (hd zero v) n)
  else Raise RuntimeError.

(** [l[-1] = v] for a matrix [l]. *)
Definition set_last (l : mat) (v : vec) : result mat :=
  match rev l with
  | [] => Raise IndexError
  | r :: _ => rbind (broadcast_vec (length r) v)
                    (fun v' => Ok (removelast l ++ [v']))
  end.

(** [l[i] = f(l[i])] in place. *)
Definition modify_item {A} (l : list A) (i : nat) (f : A -> A)
  : result (list A) :=
  match nth_error l i with
  | Some a => Ok (firstn i l ++ f a :: skipn (S i) l)
  | None => Raise IndexError
  end.

(** [l[k - 1] = f(l[k - 1])]: for [k = 0] the index is Python's [-1]. *)
Definition modify_item_pred {A} (l : list A) (k : nat) (f : A -> A)
  : result (list A) :=
  match k with
  | 0 => modify_item l (length l - 1) f
  | S i => modify_item l i f
  end.

(** Shapes and views. *)
Definition flatten (t : tensor) : vec :=
  match t with
  | T0 x => [x]
  | T1 v => v
  | T2 m => concat m
  end.

Definition shape_is (t : tensor) (r c : nat) : bool :=
  match t with
  | T2 m => (length m =? r) && forallb (fun row => length row =? c) m
  | _ => false
  end.

Definition chunks (size count : nat) (flat : vec) : mat :=
  map (fun i => firstn size (skipn (i * size) flat)) (seq 0 count).

(** [flat.view(-1, n)]. *)
Definition view_cols (n : nat) (flat : vec) : result mat :=
  if n =? 0 then Raise RuntimeError
  else if length flat mod n =? 0 then Ok (chunks n (length flat / n) flat)
  else Raise RuntimeError.

(** [flat.view(n, -1)]. *)
Definition view_rows (n : nat) (flat : vec) : result mat :=
  if n =? 0 then Raise RuntimeError
  else if length flat mod n =? 0 then Ok (chunks (length flat / n) n flat)
  else Raise RuntimeError.

(** The value [v] written to a slot of shape [(n, nx)], as in
    [states[:, i] = v]: each dimension of [v] must equal the slot's or be 1. *)
Definition assign_rows (n nx : nat) (v : mat) : result mat :=
  let a := length v in
  let b := ncols v in
  if a =? 0 then (if n =? 0 then Ok [] else Raise RuntimeError)
  else if ((a =? n) || (a =? 1)) && ((b =? nx) || (b =? 1)) then
    let rows := if a =? n then v else repeat (hd [] v) n in
    Ok (map (fun row => if b =? nx then row else repeat (hd zero row) nx) rows)
  else Raise RuntimeError.

(** [x.clamp(min=lo, max=hi)] along the last dimension; torch refuses the
    call when both bounds are [None]. *)
Definition clamp_row (lo hi : option vec) (row : vec) : vec :=
  let r1 := match lo with Some l => map2 fmax row l | None => row end in
  match hi with Some h => map2 fmin r1 h | None => r1 end.

Definition clamp (P : batch) (lo hi : option vec) : result batch :=
  match lo, hi with
  | None, None => Raise RuntimeError
  | _, _ => Ok (map (map (clamp_row lo hi)) P)
  end.

End Tensor.
Export Tensor.

(** ** The controller object *)

(** The dynamics boundary [F(state, u)] or [F(state, u, t)]: a batch of
    states, a batch of actions and the timestep when it is passed. *)
Definition dynamics := mat -> mat -> option nat -> mat.

(** The cost boundary [trajectory_cost(states, actions)]: one cost per
    trajectory. *)
Definition cost_fn := batch -> batch -> vec.

(** The attributes [__init__] fixes for the controller's lifetime. *)
Record config : Type := {
  K : nat;
  T : nat;
  nx : nat;
  nu : nat;
  lambda_ : scalar;
  u_min : option vec;
  u_max : option vec;
  u_scale : scalar;
  u_per_command : nat;
  noise_mu : vec;
  noise_sigma : mat;
  noise_sigma_inv : mat;
  u_init : vec;
  step_dependency : bool;
  F : dynamics;
  trajectory_cost : option cost_fn;
  sample_null_action : bool;
  noise_abs_cost : bool
}.

(** The controller: its configuration and the attributes the methods assign. *)
Record MPPI : Type := {
  conf : config;
  U : mat;
  state : option tensor;
  noise : option batch;
  perturbed_action : option batch;
  cost_total : option vec;
  cost_total_non_zero : option vec;
  omega : option vec;
  states : option batch;
  actions : option batch
}.

Definition set_U (v : mat) (c : MPPI) : MPPI :=
  {| conf := conf c; U := v; state := state c; noise := noise c;
     perturbed_action := perturbed_action c; cost_total := cost_total c;
     cost_total_non_zero := cost_total_non_zero c; omega := omega c;
     states := states c; actions := actions c |}.

Definition set_state (v : option tensor) (c : MPPI) : MPPI :=
  {| conf := conf c; U := U c; state := v; noise := noise c;
     perturbed_action := perturbed_action c; cost_total := cost_total c;
     cost_total_non_zero := cost_total_non_zero c; omega := omega c;
     states := states c; actions := actions c |}.

Definition set_noise (v : option batch) (c : MPPI) : MPPI :=
  {| conf := conf c; U := U c; state := state c; noise := v;
     perturbed_action := perturbed_action c; cost_total := cost_total c;
     cost_total_non_zero := cost_total_non_zero c; omega := omega c;
     states := states c; actions := actions c |}.

Definition set_perturbed_action (v : option batch) (c : MPPI) : MPPI :=
  {| conf := conf c; U := U c; state := state c; noise := noise c;
     perturbed_action := v; cost_total := cost_total c;
     cost_total_non_zero := cost_total_non_zero c; omega := omega c;
     states := states c; actions := actions c |}.

Definition set_cost_total (v : option vec) (c : MPPI) : MPPI :=
  {| conf := conf c; U := U c; state := state c; noise := noise c;
     perturbed_action := perturbed_action c; cost_total := v;
     cost_total_non_zero := cost_total_non_zero c; omega := omega c;
     states := states c; actions := actions c |}.

Definition set_cost_total_non_zero (v : option vec) (c : MPPI) : MPPI :=
  {| conf := conf c; U := U c; state := state c; noise := noise c;
     perturbed_action := perturbed_action c; cost_total := cost_total c;
     cost_total_non_zero := v; omega := omega c;
     states := states c; actions := actions c |}.

Definition set_omega (v : option vec) (c : MPPI) : MPPI :=
  {| conf := conf c; U := U c; state := state c; noise := noise c;
     perturbed_action := perturbed_action c; cost_total := cost_total c;
     cost_total_non_zero := cost_total_non_zero c; omega := v;
     states := states c; actions := actions c |}.

Definition set_states (v : option batch) (c : MPPI) : MPPI :=
  {| conf := conf c; U := U c; state := state c; noise := noise c;
     perturbed_action := perturbed_action c; cost_total := cost_total c;
     cost_total_non_zero := cost_total_non_zero c; omega := omega c;
     states := v; actions := actions c |}.

Definition set_actions (v : option batch) (c : MPPI) : MPPI :=
  {| conf := conf c; U := U c; state := state c; noise := noise c;
     perturbed_action := perturbed_action c; cost_total := cost_total c;
     cost_total_non_zero := cost_total_non_zero c; omega := omega c;
     states := states c; actions := v |}.

(** Methods run on the controller and either return or raise; what they
    assigned before raising stays assigned. *)
Definition M (A : Type) : Type := MPPI -> MPPI * result A.

Definition ret {A} (a : A) : M A := fun c => (c, Ok a).
Definition raise {A} (e : exn) : M A := fun c => (c, Raise e).
Definition bind {A B} (m : M A) (k : A -> M B) : M B :=
  fun c => match m c with
           | (c', Ok a) => k a c'
           | (c', Raise e) => (c', Raise e)
           end.
Definition self : M MPPI := fun c => (c, Ok c).
Definition assign (f : MPPI -> MPPI) : M unit := fun c => (f c, Ok tt).
Definition lift {A} (r : result A) : M A := fun c => (c, r).
Definition attr {A} (o : option A) : M A :=
  match o with
  | Some a => ret a
  | None => raise AttributeError
  end.

Notation "x <- m ;; k" := (bind m (fun x => k))
  (at level 61, m at next level, right associativity).
Notation "m ;;; k" := (bind m (fun _ => k))
  (at level 61, right associativity).

(** ** The methods of [MPPI] *)

(** [_ensure_non_zero(cost, beta, factor)] *)
Definition _ensure_non_zero (cost : vec) (beta factor : scalar) : vec :=
  map (fun c => fexp (fmul (fneg factor) (fsub c beta))) cost.

(** Python's [1 / x] on a Python number: zero raises. *)
Definition py_recip (x : scalar) : result scalar :=
  match x with
  | Fin r => if Req_dec_T r 0 then Raise ZeroDivisionError
             else Ok (Fin (1 / r))
  | PInf | NInf => Ok (Fin 0)
  | NaN => Ok NaN
  end.

(** The bounds as [__init__] completes them: a missing side is the negation
    of the given one. *)
Definition init_bounds (u_min u_max : option vec) : option vec * option vec :=
  let u_min1 := match u_max, u_min with
                | Some hi, None => Some (map fneg hi)
                | _, _ => u_min
                end in
  let u_max1 := match u_min1, u_max with
                | Some lo, None => Some (map fneg lo)
                | _, _ => u_max
                end in
  (u_min1, u_max1).

(** [MPPI.__init__].  [sigma_inv] is what [torch.inverse(noise_sigma)]
    returns and [U_sample] what [noise_dist.sample((T,))] returns. *)
Definition init (dyn : dynamics) (cost : option cost_fn) (nx0 : nat)
    (sigma : tensor) (num_samples horizon : nat) (lam : scalar)
    (mu : option vec) (umin umax : option vec) (uinit : option vec)
    (Uinit : option mat) (uscale : scalar) (per_command : nat)
    (step_dependent_dynamics null_action abs_cost : bool)
    (sigma_inv : mat) (U_sample : mat) : result MPPI :=
  let nu0 := match sigma with
             | T0 _ => 1
             | T1 v => length v
             | T2 m => length m
             end in
  let mu1 := match mu with Some m => m | None => zeros nu0 end in
  let uinit1 := match uinit with Some u => u | None => zeros (length mu1) end in
  let bounds := init_bounds umin umax in
  rbind (if nu0 =? 1 then Ok (map (fun x => [x]) (flatten sigma))
         else match sigma with
              | T2 m => Ok m
              | _ => Raise RuntimeError
              end)
    (fun sigma1 =>
       Ok {| conf := {| K := num_samples; T := horizon; nx := nx0; nu := nu0;
                        lambda_ := lam;
                        u_min := fst bounds; u_max := snd bounds;
                        u_scale := uscale; u_per_command := per_command;
                        noise_mu := mu1; noise_sigma := sigma1;
                        noise_sigma_inv := sigma_inv; u_init := uinit1;
                        step_dependency := step_dependent_dynamics;
                        F := dyn; trajectory_cost := cost;
                        sample_null_action := null_action;
                        noise_abs_cost := abs_cost |};
             U := match Uinit with Some U0 => U0 | None => U_sample end;
             state := None; noise := None; perturbed_action := None;
             cost_total := None; cost_total_non_zero := None; omega := None;
             states := None; actions := None |}).

(** [_dynamics(state, u, t)] *)
Definition _dynamics (cf : config) (st u : mat) (t : nat) : mat :=
  if step_dependency cf then F cf st u (Some t) else F cf st u None.

(** The perturbed actions before clamping: [U + noise], and the last sample
    overwritten when [sample_null_action] is set. *)
Definition perturb (cf : config) (U0 : mat) (sample : batch) : result batch :=
  let P := map (madd U0) sample in
  if sample_null_action cf then modify_item_pred P (K cf) zeros_like
  else Ok P.

(** The loop over the horizon in [_compute_total_cost_batch]: the states
    reached and the actions passed to the dynamics, one entry per step. *)
Fixpoint rollout_loop (cf : config) (P : batch) (ts : list nat) (st : mat)
  : list mat * list mat :=
  match ts with
  | [] => ([], [])
  | t :: ts' =>
      let u := mscale (u_scale cf) (column [] t P) in
      let st' := _dynamics cf st u t in
      let rest := rollout_loop cf P ts' st' in
      (st' :: fst rest, u :: snd rest)
  end.

Definition initial_states (cf : config) (st : tensor) : mat :=
  if shape_is st (K cf) (nx cf)
  then match st with T2 m => m | _ => [] end
  else repeat (flatten st) (K cf).

Definition action_cost_of (cf : config) (N : batch) : batch :=
  bmatmul (bscale (lambda_ cf) (if noise_abs_cost cf then babs N else N))
          (noise_sigma_inv cf).

(** [_compute_total_cost_batch()]; [sample] is the draw
    [noise_dist.sample((K, T))]. *)
Definition _compute_total_cost_batch (sample : batch) : M vec :=
  c <- self ;;
  let cf := conf c in
  assign (set_cost_total (Some (zeros (K cf)))) ;;;
  st <- attr (state c) ;;
  let state0 := initial_states cf st in
  assign (set_noise (Some sample)) ;;;
  assign (set_perturbed_action (Some (map (madd (U c)) sample))) ;;;
  P0 <- lift (perturb cf (U c) sample) ;;
  assign (set_perturbed_action (Some P0)) ;;;
  P <- lift (clamp P0 (u_min cf) (u_max cf)) ;;
  assign (set_perturbed_action (Some P)) ;;;
  let N := map (fun Pi => msub Pi (U c)) P in
  assign (set_noise (Some N)) ;;;
  let action_cost := action_cost_of cf N in
  let run := rollout_loop cf P (seq 0 (T cf)) state0 in
  assign (set_states (Some (fst run))) ;;;
  assign (set_actions (Some (snd run))) ;;;
  A <- lift (stack1 (snd run)) ;;
  assign (set_actions (Some A)) ;;;
  S <- lift (stack1 (fst run)) ;;
  assign (set_states (Some S)) ;;;
  match trajectory_cost cf with
  | Some tc => assign (set_cost_total (Some (vadd (zeros (K cf)) (tc S A))))
  | None => ret tt
  end ;;;
  assign (set_actions (Some (bdiv A (u_scale cf)))) ;;;
  let perturbation_cost := map (fun Ai => msum (mmul (U c) Ai)) action_cost in
  c' <- self ;;
  ct <- attr (cost_total c') ;;
  assign (set_cost_total (Some (vadd ct perturbation_cost))) ;;;
  ret (vadd ct perturbation_cost).

(** [torch.sum(omega.view(-1, 1) * noise[:, t], dim=0)] *)
Definition weighted_noise (n : nat) (om : vec) (N : batch) (t : nat) : vec :=
  sum_dim0 n (map2 vscale om (column [] t N)).

(** [for t in range(T): U[t] += ...] *)
Fixpoint update_loop (ts : list nat) : M unit :=
  match ts with
  | [] => ret tt
  | t :: ts' =>
      c <- self ;;
      om <- attr (omega c) ;;
      N <- attr (noise c) ;;
      U' <- lift (modify_item (U c) t
                    (fun row => vadd row (weighted_noise (nu (conf c)) om N t))) ;;
      assign (set_U U') ;;;
      update_loop ts'
  end.

(** The loop of [get_rollouts]: [Us] pairs each timestep with its row of U,
    [cur] is [states[:, t]]. *)
Fixpoint replay (cf : config) (n : nat) (Us : list (nat * vec)) (cur : mat)
  : result (list mat) :=
  match Us with
  | [] => Ok []
  | (t, ut) :: rest =>
      rbind (view_rows n (concat cur)) (fun sv =>
      rbind (view_rows n ut) (fun uv =>
      rbind (assign_rows n (nx cf)
               (_dynamics cf sv (mscale (u_scale cf) uv) t)) (fun nxt =>
      rbind (replay cf n rest nxt) (fun tl => Ok (nxt :: tl)))))
  end.

(** [get_rollouts(state, num_rollouts)] *)
Definition get_rollouts (st : tensor) (num_rollouts : nat) : M batch :=
  c <- self ;;
  let cf := conf c in
  rows <- lift (view_cols (nx cf) (flatten st)) ;;
  let rows' := if length rows =? 1
               then concat (repeat rows num_rollouts) else rows in
  s0 <- lift (assign_rows num_rollouts (nx cf) rows') ;;
  tl <- lift (replay cf num_rollouts
                (combine (seq 0 (length (U c))) (U c)) s0) ;;
  ret (map (fun i => column [] i tl) (seq 0 num_rollouts)).

(** [command(state)]; [sample] is the draw made inside
    [_compute_total_cost_batch]. *)
Definition command (st : tensor) (sample : batch) : M (tensor * batch) :=
  c <- self ;;
  let cf := conf c in
  assign (set_U (roll_left (U c))) ;;;
  U1 <- lift (set_last (roll_left (U c)) (u_init cf)) ;;
  assign (set_U U1) ;;;
  assign (set_state (Some st)) ;;;
  cost <- _compute_total_cost_batch sample ;;
  beta <- lift (tmin cost) ;;
  factor <- lift (py_recip (lambda_ cf)) ;;
  let non_zero := _ensure_non_zero cost beta factor in
  assign (set_cost_total_non_zero (Some non_zero)) ;;;
  let eta := fsum non_zero in
  assign (set_omega (Some (vscale (fdiv one eta) non_zero))) ;;;
  update_loop (seq 0 (T cf)) ;;;
  c' <- self ;;
  let acts := mscale (u_scale cf) (firstn (u_per_command cf) (U c')) in
  a <- (if u_per_command cf =? 1
        then match acts with
             | [] => raise IndexError
             | a0 :: _ => ret (T1 a0)
             end
        else ret (T2 acts)) ;;
  rollout <- get_rollouts st 1 ;;
  ret (a, rollout).

(** [reset()]; [sample] is the draw [noise_dist.sample((T,))]. *)
Definition reset (sample : mat) : M unit := assign (set_U sample).

(** ** The values one call of [command] computes

    Names for the intermediate tensors of a call, as functions of the
    configuration [cf], the nominal sequence [U1] at the time
    [_compute_total_cost_batch] runs, the state argument and the noise draw.
    Each is the expression of the source with the exceptions stripped; the
    lemmas below show that the methods compute exactly these. *)

Definition shifted (c : MPPI) : mat :=
  removelast (roll_left (U c)) ++ [u_init (conf c)].

Definition null_sampled (cf : config) (P : batch) : batch :=
  if sample_null_action cf
  then firstn (K cf - 1) P
         ++ zeros_like (nth (K cf - 1) P []) :: skipn (S (K cf - 1)) P
  else P.

Definition pre_clamp (cf : config) (U1 : mat) (sample : batch) : batch :=
  null_sampled cf (map (madd U1) sample).

Definition clamped (cf : config) (U1 : mat) (sample : batch) : batch :=
  map (map (clamp_row (u_min cf) (u_max cf))) (pre_clamp cf U1 sample).

Definition eff_noise (cf : config) (U1 : mat) (sample : batch) : batch :=
  map (fun Pi => msub Pi U1) (clamped cf U1 sample).

Definition stacked (ms : list mat) : batch :=
  map (fun i => column [] i ms) (seq 0 (length (hd [] ms))).

Definition run_of (cf : config) (U1 : mat) (st : tensor) (sample : batch)
  : list mat * list mat :=
  rollout_loop cf (clamped cf U1 sample) (seq 0 (T cf)) (initial_states cf st).

Definition perturbation_cost_of (cf : config) (U1 : mat) (sample : batch)
  : vec :=
  map (fun Ai => msum (mmul U1 Ai)) (action_cost_of cf (eff_noise cf U1 sample)).

Definition trajectory_cost_of (cf : config) (U1 : mat) (st : tensor)
    (sample : batch) : vec :=
  match trajectory_cost cf with
  | Some tc => vadd (zeros (K cf))
                 (tc (stacked (fst (run_of cf U1 st sample)))
                     (stacked (snd (run_of cf U1 st sample))))
  | None => zeros (K cf)
  end.

Definition total_cost_of (cf : config) (U1 : mat) (st : tensor)
    (sample : batch) : vec :=
  vadd (trajectory_cost_of cf U1 st sample) (perturbation_cost_of cf U1 sample).

(** The weights from a cost vector and the factor [1 / lambda_]. *)
Definition factor_of (lam : scalar) : scalar :=
  match lam with
  | Fin r => Fin (1 / r)
  | PInf | NInf => Fin 0
  | NaN => NaN
  end.

Definition beta_of (cost : vec) : scalar :=
  fold_left fmin (tl cost) (hd NaN cost).

Definition non_zero_of (factor : scalar) (cost : vec) : vec :=
  _ensure_non_zero cost (beta_of cost) factor.

Definition omega_of (factor : scalar) (cost : vec) : vec :=
  vscale (fdiv one (fsum (non_zero_of factor cost))) (non_zero_of factor cost).

Definition updated (n : nat) (om : vec) (N : batch) (U1 : mat) : mat :=
  map (fun t => vadd (nth t U1 []) (weighted_noise n om N t))
      (seq 0 (length U1)).

Definition returned_actions (cf : config) (U' : mat) : tensor :=
  if u_per_command cf =? 1 then T1 (vscale (u_scale cf) (hd [] U'))
  else T2 (mscale (u_scale cf) (firstn (u_per_command cf) U')).

(** Shapes. *)
Definition shape2 (r c : nat) (m : mat) : Prop :=
  length m = r /\ Forall (fun row => length row = c) m.

Definition shape3 (k r c : nat) (B : batch) : Prop :=
  length B = k /\ Forall (shape2 r c) B.

Definition all_entries (P : scalar -> Prop) (B : batch) : Prop :=
  Forall (Forall (Forall P)) B.

(** Every entry of [row] between the bounds of its dimension. *)
Definition within (lo hi row : vec) : Prop :=
  Forall2 fle lo row /\ Forall2 fle row hi.

(** What a call of [command] relies on to reach the update of U: a horizon
    and a sample count of at least one, the shapes [__init__] and the sampler
    establish, both bounds set (as [__init__] leaves them once one is given),
    a temperature other than zero, and a cost boundary that returns one cost
    per trajectory it is given. *)
Record wf (c : MPPI) (sample : batch) : Prop := {
  wf_T : 1 <= T (conf c);
  wf_K : 1 <= K (conf c);
  wf_U : shape2 (T (conf c)) (nu (conf c)) (U c);
  wf_u_init : length (u_init (conf c)) = nu (conf c);
  wf_sample : shape3 (K (conf c)) (T (conf c)) (nu (conf c)) sample;
  wf_u_min : exists lo, u_min (conf c) = Some lo /\ length lo = nu (conf c);
  wf_u_max : exists hi, u_max (conf c) = Some hi /\ length hi = nu (conf c);
  wf_lambda : lambda_ (conf c) <> Fin 0;
  wf_cost : forall tc, trajectory_cost (conf c) = Some tc ->
            forall S A, length A = K (conf c) -> length (tc S A) = K (conf c)
}.

(** The controller after a call of [command] that reached the update. *)
Definition after_command (c : MPPI) (st : tensor) (sample : batch) : MPPI :=
  let cf := conf c in
  let U1 := shifted c in
  let cost := total_cost_of cf U1 st sample in
  let N := eff_noise cf U1 sample in
  let factor := factor_of (lambda_ cf) in
  {| conf := cf;
     U := updated (nu cf) (omega_of factor cost) N U1;
     state := Some st;
     noise := Some N;
     perturbed_action := Some (clamped cf U1 sample);
     cost_total := Some cost;
     cost_total_non_zero := Some (non_zero_of factor cost);
     omega := Some (omega_of factor cost);
     states := Some (stacked (fst (run_of cf U1 st sample)));
     actions := Some (bdiv (stacked (snd (run_of cf U1 st sample)))
                           (u_scale cf)) |}.

(** The real-valued sum and minimum of a list. *)
Definition Rsum (l : list R) : R := fold_right Rplus 0%R l.
Definition Rmin_list (r : R) (rs : list R) : R := fold_left Rmin rs r.

(** For finite total costs [rs] and temperature [l]: the minimum cost, the
    unnormalized weight of a cost and the sum of the weights, as real
    numbers. *)
Definition beta (rs : list R) : R := Rmin_list (hd 0%R rs) (tl rs).
Definition weight (l : R) (rs : list R) (r : R) : R :=
  exp (- (r - beta rs) / l).
Definition eta (l : R) (rs : list R) : R := Rsum (map (weight l rs) rs).

(** ** Example controllers

    Small controllers with one state and one control dimension, used to
    evaluate the methods on concrete inputs. *)

Definition hold : dynamics := fun st _ _ => st.

(** The cost boundary that returns, per trajectory, the sum of the actions it
    is given. *)
Definition sum_of_actions : cost_fn := fun _ A => map msum A.

Definition nan_cost : cost_fn := fun _ A => map (fun _ => NaN) A.

Definition small_conf (k t : nat) (lo hi : option vec) (s : scalar)
    (ui : vec) (tc : option cost_fn) (null : bool) : config :=
  {| K := k; T := t; nx := 1; nu := 1; lambda_ := one;
     u_min := lo; u_max := hi; u_scale := s; u_per_command := 1;
     noise_mu := [zero]; noise_sigma := [[one]]; noise_sigma_inv := [[one]];
     u_init := ui; step_dependency := false; F := hold;
     trajectory_cost := tc; sample_null_action := null;
     noise_abs_cost := false |}.

Definition fresh (cf : config) (U0 : mat) : MPPI :=
  {| conf := cf; U := U0; state := None; noise := None;
     perturbed_action := None; cost_total := None;
     cost_total_non_zero := None; omega := None;
     states := None; actions := None |}.

(** Two samples over a horizon of two, bounds [-1, 1]. *)
Definition demo : MPPI :=
  fresh (small_conf 2 2 (Some [Fin (-1)]) (Some [Fin 1]) one [zero]
           (Some sum_of_actions) false)
        [[Fin 1]; [Fin 0]].
Definition demo_sample : batch :=
  [[[Fin 0]; [Fin 0]]; [[Fin 1]; [Fin 0]]].
Definition demo_state : tensor := T1 [zero].

(** Only [u_max = -1] is given to [__init__]. *)
Definition negative_max : MPPI :=
  fresh (small_conf 1 1 (Some [Fin 1]) (Some [Fin (-1)]) one [zero] None false)
        [[zero]].

(** No bounds given, the default of [__init__]. *)
Definition unbounded : MPPI :=
  fresh (small_conf 1 1 None None one [zero] None false) [[zero]].

(** A cost boundary that returns NaN. *)
Definition nan_costed : MPPI :=
  fresh (small_conf 1 1 (Some [Fin (-1)]) (Some [Fin 1]) one [zero]
           (Some nan_cost) false)
        [[Fin 1]].

(** A batch of K = 2 states. *)
Definition two_states : tensor := T2 [[zero]; [zero]].

(** Null-action sampling with [u_init = 1]. *)
Definition null_sampling : config :=
  small_conf 1 1 (Some [Fin (-5)]) (Some [Fin 5]) one [one] None true.

(** Control scale 2 and a cost boundary that shows the actions it gets. *)
Definition scaled : MPPI :=
  fresh (small_conf 1 1 (Some [Fin (-5)]) (Some [Fin 5]) (Fin 2) [zero]
           (Some sum_of_actions) false)
        [[zero]].
Definition unit_sample : batch := [[[one]]].
Definition zero_sample : batch := [[[zero]]].

Definition null_sampled_ctrl : MPPI := fresh null_sampling [[zero]].

(** Only [u_min = -1] is given to [__init__]. *)
Definition derived_max : MPPI :=
  fresh (small_conf 1 1 (Some [Fin (-1)]) (Some [fneg (Fin (-1))]) one [zero]
           None false)
        [[zero]].

(** Bounds [-1, 1], a nominal action 0 and a sampled perturbation of +5. *)
Definition bounded_unit : MPPI :=
  fresh (small_conf 1 1 (Some [Fin (-1)]) (Some [Fin 1]) one [zero] None false)
        [[zero]].
Definition five_sample : batch := [[[Fin 5]]].

(** ** Further methods of [MPPI] *)

(** [_slice_control(t)]: the slice [t * nu : (t + 1) * nu]. *)
Definition _slice_control (cf : config) (t : nat) : nat * nat :=
  (t * nu cf, (t + 1) * nu cf).

(** [row[a:b]] and [row[a:b] = v]; a slice is clipped to the row. *)
Definition get_slice (sl : nat * nat) (row : vec) : vec :=
  firstn (snd sl - fst sl) (skipn (fst sl) row).

Definition set_slice (sl : nat * nat) (row v : vec) : vec :=
  firstn (fst sl) row ++ v ++ skipn (snd sl) row.

(** [torch.max(torch.min(u, u_max), u_min)] on one row of a slice. *)
Definition bound_row (lo hi row : vec) : vec :=
  map2 fmax (map2 fmin row hi) lo.

(** The loop of [_bound_action] over the timesteps, on an action tensor of
    shape (K, T * nu). *)
Fixpoint bound_loop (cf : config) (lo hi : vec) (ts : list nat) (action : mat)
  : mat :=
  match ts with
  | [] => action
  | t :: ts' =>
      let sl := _slice_control cf t in
      let u := map (get_slice sl) action in
      let cu := map (bound_row lo hi) u in
      bound_loop cf lo hi ts' (map2 (set_slice sl) action cu)
  end.

(** What [_bound_action] does: it returns the action tensor, or fails with a
    TypeError when [u_max] is set and [u_min] is [None]. *)
Inductive bound_outcome : Type :=
| Bounded (action : mat)
| BoundTypeError.

(** [_bound_action(action)] *)
Definition _bound_action (cf : config) (action : mat) : bound_outcome :=
  match u_max cf with
  | None => Bounded action
  | Some hi =>
      match u_min cf with
      | Some lo => Bounded (bound_loop cf lo hi (seq 0 (T cf)) action)
      | None => if T cf =? 0 then Bounded action else BoundTypeError
      end
  end.

(** A matrix all of whose rows have one length, as a tensor has. *)
Definition rect (m : mat) : Prop :=
  exists n, Forall (fun row => length row = n) m.

(** The number of control dimensions [__init__] reads off [noise_sigma]. *)
Definition sigma_nu (sigma : tensor) : nat :=
  match sigma with
  | T0 _ => 1
  | T1 v => length v
  | T2 m => length m
  end.

(** ** Further example controllers *)

(** [demo] with another first row of U and a stale [omega]. *)
Definition demo_alt : MPPI :=
  set_omega (Some [NaN]) (fresh (conf demo) [[Fin 7]; [Fin 0]]).

(** A temperature of zero. *)
Definition cold : MPPI :=
  fresh {| K := 1; T := 1; nx := 1; nu := 1; lambda_ := zero;
           u_min := Some [Fin (-1)]; u_max := Some [Fin 1]; u_scale := one;
           u_per_command := 1; noise_mu := [zero]; noise_sigma := [[one]];
           noise_sigma_inv := [[one]]; u_init := [zero];
           step_dependency := false; F := hold; trajectory_cost := None;
           sample_null_action := false; noise_abs_cost := false |}
        [[zero]].

(** No samples. *)
Definition sampleless : MPPI :=
  fresh (small_conf 0 1 (Some [Fin (-1)]) (Some [Fin 1]) one [zero] None false)
        [[zero]].

(** Two samples, no cost boundary and a zero nominal sequence: all total
    costs are 0. *)
Definition costless : MPPI :=
  fresh (small_conf 2 2 (Some [Fin (-1)]) (Some [Fin 1]) one [zero] None false)
        [[zero]; [zero]].

(** ** The range of [torch.exp]

    The weights are the one place of [command] where the range of
    floating-point numbers decides a property: [torch.exp] returns 0 for an
    argument far enough below 0 and infinity for one far enough above.
    [command_with ex] is [command] with [ex] for [torch.exp]; with the exact
    exponential [fexp] it is [command] itself. *)

(** What the weights need of an implementation [ex] of [torch.exp]: it is
    exact at 0 and maps the numbers up to 0 into [0, 1].  The exact
    exponential has both properties and so has every rounded one. *)
Record exp_model (ex : scalar -> scalar) : Prop := {
  ex_zero : ex (Fin 0) = Fin 1;
  ex_nonpos : forall r, (r <= 0)%R ->
              exists y, ex (Fin r) = Fin y /\ (0 <= y <= 1)%R
}.

(** [torch.exp] with the range of a binary64 tensor and no rounding inside
    it: [exp r] is below half the smallest positive number for [r < -746]
    and above the largest number for [r > 710].  A binary32 tensor leaves
    the range earlier on both sides. *)
Definition torch_exp (x : scalar) : scalar :=
  match x with
  | Fin r => if Rlt_dec r (-746) then Fin 0
             else if Rlt_dec 710 r then PInf
             else Fin (exp r)
  | PInf => PInf
  | NInf => Fin 0
  | NaN => NaN
  end.

(** [_ensure_non_zero(cost, beta, factor)] with [ex] for [torch.exp]. *)
Definition _ensure_non_zero_with (ex : scalar -> scalar) (cost : vec)
    (beta factor : scalar) : vec :=
  map (fun c => ex (fmul (fneg factor) (fsub c beta))) cost.

(** [command(state)] with [ex] for [torch.exp]. *)
Definition command_with (ex : scalar -> scalar) (st : tensor) (sample : batch)
  : M (tensor * batch) :=
  c <- self ;;
  let cf := conf c in
  assign (set_U (roll_left (U c))) ;;;
  U1 <- lift (set_last (roll_left (U c)) (u_init cf)) ;;
  assign (set_U U1) ;;;
  assign (set_state (Some st)) ;;;
  cost <- _compute_total_cost_batch sample ;;
  beta <- lift (tmin cost) ;;
  factor <- lift (py_recip (lambda_ cf)) ;;
  let non_zero := _ensure_non_zero_with ex cost beta factor in
  assign (set_cost_total_non_zero (Some non_zero)) ;;;
  let eta := fsum non_zero in
  assign (set_omega (Some (vscale (fdiv one eta) non_zero))) ;;;
  update_loop (seq 0 (T cf)) ;;;
  c' <- self ;;
  let acts := mscale (u_scale cf) (firstn (u_per_command cf) (U c')) in
  a <- (if u_per_command cf =? 1
        then match acts with
             | [] => raise IndexError
             | a0 :: _ => ret (T1 a0)
             end
        else ret (T2 acts)) ;;
  rollout <- get_rollouts st 1 ;;
  ret (a, rollout).

Definition non_zero_with (ex : scalar -> scalar) (factor : scalar)
    (cost : vec) : vec :=
  _ensure_non_zero_with ex cost (beta_of cost) factor.

Definition omega_with (ex : scalar -> scalar) (factor : scalar) (cost : vec)
  : vec :=
  vscale (fdiv one (fsum (non_zero_with ex factor cost)))
         (non_zero_with ex factor cost).

(** The controller after a call of [command_with ex] that reached the
    update. *)
Definition after_command_with (ex : scalar -> scalar) (c : MPPI)
    (st : tensor) (sample : batch) : MPPI :=
  let cf := conf c in
  let U1 := shifted c in
  let cost := total_cost_of cf U1 st sample in
  let N := eff_noise cf U1 sample in
  let factor := factor_of (lambda_ cf) in
  {| conf := cf;
     U := updated (nu cf) (omega_with ex factor cost) N U1;
     state := Some st;
     noise := Some N;
     perturbed_action := Some (clamped cf U1 sample);
     cost_total := Some cost;
     cost_total_non_zero := Some (non_zero_with ex factor cost);
     omega := Some (omega_with ex factor cost);
     states := Some (stacked (fst (run_of cf U1 st sample)));
     actions := Some (bdiv (stacked (snd (run_of cf U1 st sample)))
                           (u_scale cf)) |}.


(** A cost boundary with a spread of 1000 between its two trajectories, and
    a controller with it: two samples over a horizon of one. *)
Definition spread_cost : cost_fn := fun _ _ => [Fin 0; Fin 1000].
Definition still_sample : batch := [[[zero]]; [[zero]]].

(** [spread] with a temperature of -1. *)
Definition spread_negative : MPPI :=
  fresh {| K := 2; T := 1; nx := 1; nu := 1; lambda_ := Fin (-1);
           u_min := Some [Fin (-1)]; u_max := Some [Fin 1]; u_scale := one;
           u_per_command := 1; noise_mu := [zero]; noise_sigma := [[one]];
           noise_sigma_inv := [[one]]; u_init := [zero];
           step_dependency := false; F := hold;
           trajectory_cost := Some spread_cost;
           sample_null_action := false; noise_abs_cost := false |}
        [[zero]].

(** * Properties *)

(** The real-number primitives stay folded when a term of the model is
    simplified. *)
#[local] Arguments Rmin : simpl never.
#[local] Arguments Rmax : simpl never.
#[local] Arguments Rabs : simpl never.
#[local] Arguments exp : simpl never.
#[local] Arguments Rle_dec : simpl never.
#[local] Arguments Rlt_dec : simpl never.
#[local] Arguments Req_dec_T : simpl never.
#[local] Arguments Rdiv : simpl never.
#[local] Arguments Rminus : simpl never.

(** ** Lists and shapes *)

Ltac simpl_ctrl :=
  unfold set_U, set_state, set_noise, set_perturbed_action, set_cost_total,
    set_cost_total_non_zero, set_omega, set_states, set_actions;
  cbn [conf U state noise perturbed_action cost_total cost_total_non_zero
       omega states actions].

Ltac nat_bool :=
  repeat match goal with
         | H : (_ <=? _) = true |- _ => apply Nat.leb_le in H
         | H : (_ <=? _) = false |- _ => apply Nat.leb_gt in H
         | H : (_ <? _) = true |- _ => apply Nat.ltb_lt in H
         | H : (_ <? _) = false |- _ => apply Nat.ltb_ge in H
         | H : (_ =? _) = true |- _ => apply Nat.eqb_eq in H
         | H : (_ =? _) = false |- _ => apply Nat.eqb_neq in H
         end.

Lemma map2_length {A B C} (f : A -> B -> C) l l' :
  length (map2 f l l') = Nat.min (length l) (length l').
Proof.
  revert l'. induction l as [|a l IH]; intros [|b l']; simpl; auto.
Qed.

Lemma map2_nth {A B C} (f : A -> B -> C) l l' da db dc j :
  j < length l -> j < length l' ->
  nth j (map2 f l l') dc = f (nth j l da) (nth j l' db).
Proof.
  revert l' j. induction l as [|a l IH]; intros [|b l'] [|j]; simpl;
    intros H1 H2; try lia; auto.
  apply IH; lia.
Qed.

Lemma nth_map_seq {A} (f : nat -> A) (d : A) (n t : nat) :
  t < n -> nth t (map f (seq 0 n)) d = f t.
Proof.
  intros Ht.
  rewrite (nth_indep _ d (f 0)) by (rewrite length_map, length_seq; exact Ht).
  rewrite (map_nth f (seq 0 n) 0 t), seq_nth by exact Ht. reflexivity.
Qed.

Lemma map_nth_seq {A} (l : list A) (d : A) :
  map (fun i => nth i l d) (seq 0 (length l)) = l.
Proof.
  apply (nth_ext _ _ d d).
  - now rewrite length_map, length_seq.
  - intros n Hn. rewrite length_map, length_seq in Hn.
    now rewrite nth_map_seq.
Qed.

Lemma modify_item_ok {A} (l : list A) (i : nat) (f : A -> A) (d : A) :
  i < length l ->
  exists l', modify_item l i f = Ok l' /\ length l' = length l /\
             forall t, nth t l' d = if t =? i then f (nth i l d) else nth t l d.
Proof.
  intros Hi. unfold modify_item.
  destruct (nth_error l i) as [a|] eqn:E;
    [|apply nth_error_None in E; lia].
  eexists; split; [reflexivity|].
  pose proof (nth_error_nth _ _ d E) as Hn.
  assert (Hl : length (firstn i l) = i) by (rewrite length_firstn; lia).
  split.
  - rewrite length_app, Hl. cbn [length]. rewrite length_skipn. lia.
  - intros t. destruct (Nat.eqb_spec t i) as [->|Hne].
    + rewrite app_nth2 by lia. rewrite Hl, Nat.sub_diag. simpl. congruence.
    + destruct (Nat.lt_ge_cases t i) as [Hlt|Hge].
      * rewrite app_nth1 by lia.
        rewrite <- (firstn_skipn i l) at 2. rewrite app_nth1 by lia.
        reflexivity.
      * rewrite app_nth2 by lia. rewrite Hl.
        destruct (t - i) as [|k] eqn:Ek; [lia|]. simpl.
        rewrite <- (firstn_skipn (S i) l) at 2.
        rewrite app_nth2 by (rewrite length_firstn; lia).
        rewrite length_firstn. f_equal. lia.
Qed.

Lemma shape2_nth r c m t :
  shape2 r c m -> t < r -> length (nth t m []) = c.
Proof.
  intros [Hl Hf] Ht. rewrite Forall_forall in Hf. apply Hf, nth_In. lia.
Qed.

Lemma shape3_nth k r c B i :
  shape3 k r c B -> i < k -> shape2 r c (nth i B []).
Proof.
  intros [Hl Hf] Hi. rewrite Forall_forall in Hf. apply Hf, nth_In. lia.
Qed.

Lemma vadd_length n a b :
  length a = n -> length b = n -> length (vadd a b) = n.
Proof. intros. unfold vadd. rewrite map2_length. lia. Qed.

Lemma madd_shape r c a b :
  shape2 r c a -> shape2 r c b -> shape2 r c (madd a b).
Proof.
  intros [Ha Fa] [Hb Fb]. subst r. revert b Hb Fb.
  induction Fa as [|x a Hx Fa IH]; intros [|y b] Hb Fb; simpl in *;
    try discriminate; [split; auto|].
  inversion Fb as [|? ? Hy Fb']; subst.
  destruct (IH b) as [L1 L2]; [lia|assumption|].
  split; [simpl; unfold madd in L1; now rewrite L1|].
  constructor; [apply vadd_length; auto|exact L2].
Qed.

Lemma msub_shape r c a b :
  shape2 r c a -> shape2 r c b -> shape2 r c (msub a b).
Proof.
  intros [Ha Fa] [Hb Fb]. subst r. revert b Hb Fb.
  induction Fa as [|x a Hx Fa IH]; intros [|y b] Hb Fb; simpl in *;
    try discriminate; [split; auto|].
  inversion Fb as [|? ? Hy Fb']; subst.
  destruct (IH b) as [L1 L2]; [lia|assumption|].
  split; [simpl; unfold msub in L1; now rewrite L1|].
  constructor; [unfold vsub; rewrite map2_length; lia|exact L2].
Qed.

Lemma zeros_like_shape r c m : shape2 r c m -> shape2 r c (zeros_like m).
Proof.
  intros [Hl Hf]. split; [unfold zeros_like; now rewrite length_map|].
  unfold zeros_like. rewrite Forall_map.
  eapply Forall_impl; [|exact Hf]. intros a Ha. now rewrite length_map.
Qed.

Lemma Forall_firstn {A} (P : A -> Prop) n l : Forall P l -> Forall P (firstn n l).
Proof.
  rewrite !Forall_forall. intros H x Hx. apply H.
  rewrite <- (firstn_skipn n l). apply in_or_app. now left.
Qed.

Lemma Forall_skipn {A} (P : A -> Prop) n l : Forall P l -> Forall P (skipn n l).
Proof.
  rewrite !Forall_forall. intros H x Hx. apply H.
  rewrite <- (firstn_skipn n l). apply in_or_app. now right.
Qed.

Lemma null_sampled_length cf P :
  1 <= K cf -> length P = K cf -> length (null_sampled cf P) = K cf.
Proof.
  intros HK HP. unfold null_sampled.
  destruct (sample_null_action cf); [|exact HP].
  rewrite length_app, length_firstn. cbn [length]. rewrite length_skipn. lia.
Qed.

Lemma pre_clamp_shape cf U1 sample :
  1 <= K cf -> shape2 (T cf) (nu cf) U1 ->
  shape3 (K cf) (T cf) (nu cf) sample ->
  shape3 (K cf) (T cf) (nu cf) (pre_clamp cf U1 sample).
Proof.
  intros HK HU [HS FS].
  assert (Hm : shape3 (K cf) (T cf) (nu cf) (map (madd U1) sample)).
  { split; [now rewrite length_map|]. rewrite Forall_map.
    eapply Forall_impl; [|exact FS]. intros a Ha. now apply madd_shape. }
  destruct Hm as [Hl Hf].
  split; [apply null_sampled_length; auto|].
  unfold pre_clamp, null_sampled. destruct (sample_null_action cf); [|exact Hf].
  apply Forall_app. split; [now apply Forall_firstn|].
  constructor; [|now apply Forall_skipn].
  apply zeros_like_shape. apply shape3_nth with (k := K cf); [split; auto|lia].
Qed.

Lemma clamp_row_length lo hi row n :
  length row = n -> length lo = n -> length hi = n ->
  length (clamp_row (Some lo) (Some hi) row) = n.
Proof. intros. unfold clamp_row. rewrite !map2_length. lia. Qed.

Lemma clamped_shape cf U1 sample lo hi :
  1 <= K cf -> shape2 (T cf) (nu cf) U1 ->
  shape3 (K cf) (T cf) (nu cf) sample ->
  u_min cf = Some lo -> length lo = nu cf ->
  u_max cf = Some hi -> length hi = nu cf ->
  shape3 (K cf) (T cf) (nu cf) (clamped cf U1 sample).
Proof.
  intros HK HU HS Hlo Hl Hhi Hh.
  destruct (pre_clamp_shape cf U1 sample HK HU HS) as [HP FP].
  unfold clamped. rewrite Hlo, Hhi.
  split; [now rewrite length_map|]. rewrite Forall_map.
  eapply Forall_impl; [|exact FP]. intros m [Hm Fm].
  split; [now rewrite length_map|]. rewrite Forall_map.
  eapply Forall_impl; [|exact Fm]. intros row Hrow.
  now apply clamp_row_length.
Qed.

Lemma eff_noise_shape cf U1 sample lo hi :
  1 <= K cf -> shape2 (T cf) (nu cf) U1 ->
  shape3 (K cf) (T cf) (nu cf) sample ->
  u_min cf = Some lo -> length lo = nu cf ->
  u_max cf = Some hi -> length hi = nu cf ->
  shape3 (K cf) (T cf) (nu cf) (eff_noise cf U1 sample).
Proof.
  intros HK HU HS Hlo Hl Hhi Hh.
  destruct (clamped_shape cf U1 sample lo hi HK HU HS Hlo Hl Hhi Hh) as [HP FP].
  unfold eff_noise. split; [now rewrite length_map|]. rewrite Forall_map.
  eapply Forall_impl; [|exact FP]. intros m Hm. now apply msub_shape.
Qed.

Lemma shifted_eq c r rs :
  U c = r :: rs -> shifted c = rs ++ [u_init (conf c)].
Proof.
  intros E. unfold shifted. rewrite E. simpl roll_left.
  now rewrite removelast_last.
Qed.

Lemma shifted_shape c sample :
  wf c sample -> shape2 (T (conf c)) (nu (conf c)) (shifted c).
Proof.
  intros [HT _ [HU FU] Hu _ _ _ _ _].
  destruct (U c) as [|r rs] eqn:E; [simpl in HU; lia|].
  rewrite (shifted_eq c r rs E). inversion FU; subst.
  split; [rewrite length_app; simpl in *; lia|].
  apply Forall_app. split; [assumption|]. constructor; [exact Hu|constructor].
Qed.

(** ** What the methods compute *)

Lemma set_last_shifted c sample :
  wf c sample ->
  set_last (roll_left (U c)) (u_init (conf c)) = Ok (shifted c).
Proof.
  intros [HT1 _ [HT Hrows] Hu _ _ _ _ _].
  unfold shifted, set_last.
  destruct (U c) as [|r rs]; [simpl in HT; lia|].
  simpl roll_left. rewrite rev_app_distr. simpl.
  inversion Hrows as [|? ? Hr Hrs]; subst.
  unfold broadcast_vec. rewrite Hu, Hr, Nat.eqb_refl. reflexivity.
Qed.

Lemma perturb_ok cf U1 sample :
  1 <= K cf -> length sample = K cf ->
  perturb cf U1 sample = Ok (pre_clamp cf U1 sample).
Proof.
  intros HK Hlen. unfold perturb, pre_clamp, null_sampled.
  destruct (sample_null_action cf); [|reflexivity].
  destruct (K cf) as [|i] eqn:EK; [lia|].
  cbn [modify_item_pred]. unfold modify_item.
  replace (S i - 1) with i by lia.
  destruct (nth_error (map (madd U1) sample) i) eqn:E.
  - rewrite (nth_error_nth _ _ _ E). reflexivity.
  - apply nth_error_None in E. rewrite length_map in E. lia.
Qed.

Lemma rollout_loop_length cf P ts st :
  length (fst (rollout_loop cf P ts st)) = length ts /\
  length (snd (rollout_loop cf P ts st)) = length ts.
Proof.
  revert st. induction ts as [|t ts IH]; intros st; cbn; [auto|].
  destruct (IH (_dynamics cf st (mscale (u_scale cf) (column [] t P)) t)).
  split; congruence.
Qed.

Lemma stack1_stacked ms : ms <> [] -> stack1 ms = Ok (stacked ms).
Proof. destruct ms; [congruence|reflexivity]. Qed.

Lemma bind_self {A} (k : MPPI -> M A) c : bind self k c = k c c.
Proof. reflexivity. Qed.

Lemma bind_assign {A} f (k : unit -> M A) c : bind (assign f) k c = k tt (f c).
Proof. reflexivity. Qed.

Lemma bind_lift_ok {A B} (a : A) (k : A -> M B) c :
  bind (lift (Ok a)) k c = k a c.
Proof. reflexivity. Qed.

Lemma bind_lift_raise {A B} e (k : A -> M B) c :
  bind (lift (Raise e)) k c = (c, Raise e).
Proof. reflexivity. Qed.

Lemma bind_attr_some {A B} (a : A) (k : A -> M B) c :
  bind (attr (Some a)) k c = k a c.
Proof. reflexivity. Qed.

Lemma bind_ret {A B} (a : A) (k : A -> M B) c : bind (ret a) k c = k a c.
Proof. reflexivity. Qed.

Lemma bind_ok {A B} (m : M A) (k : A -> M B) c c' a :
  m c = (c', Ok a) -> bind m k c = k a c'.
Proof. intros E. unfold bind. now rewrite E. Qed.

Ltac mstep :=
  first [ rewrite bind_self | rewrite bind_assign | rewrite bind_lift_ok
        | rewrite bind_attr_some | rewrite bind_ret ];
  cbv beta zeta; simpl_ctrl.

Lemma cost_batch_run c st sample :
  1 <= T (conf c) -> 1 <= K (conf c) -> length sample = K (conf c) ->
  state c = Some st ->
  (u_min (conf c) <> None \/ u_max (conf c) <> None) ->
  _compute_total_cost_batch sample c =
  (let cf := conf c in
   {| conf := cf; U := U c; state := Some st;
      noise := Some (eff_noise cf (U c) sample);
      perturbed_action := Some (clamped cf (U c) sample);
      cost_total := Some (total_cost_of cf (U c) st sample);
      cost_total_non_zero := cost_total_non_zero c; omega := omega c;
      states := Some (stacked (fst (run_of cf (U c) st sample)));
      actions := Some (bdiv (stacked (snd (run_of cf (U c) st sample)))
                            (u_scale cf)) |},
   Ok (total_cost_of (conf c) (U c) st sample)).
Proof.
  intros HT HK Hlen Hst Hb.
  assert (Hc : clamp (pre_clamp (conf c) (U c) sample) (u_min (conf c))
                 (u_max (conf c)) = Ok (clamped (conf c) (U c) sample)).
  { unfold clamp, clamped.
    destruct (u_min (conf c)), (u_max (conf c)); try reflexivity.
    destruct Hb; congruence. }
  destruct (rollout_loop_length (conf c) (clamped (conf c) (U c) sample)
              (seq 0 (T (conf c))) (initial_states (conf c) st)) as [Hf Hs].
  fold (run_of (conf c) (U c) st sample) in Hf, Hs.
  rewrite length_seq in Hf, Hs.
  unfold _compute_total_cost_batch.
  mstep. mstep. rewrite Hst. mstep. mstep. mstep.
  rewrite (perturb_ok _ (U c) _ HK Hlen). mstep. mstep.
  rewrite Hc. mstep. mstep. mstep.
  fold (run_of (conf c) (U c) st sample).
  mstep. mstep.
  rewrite (stack1_stacked (snd (run_of (conf c) (U c) st sample)))
    by (intros E; rewrite E in Hs; simpl in Hs; lia).
  mstep. mstep.
  rewrite (stack1_stacked (fst (run_of (conf c) (U c) st sample)))
    by (intros E; rewrite E in Hf; simpl in Hf; lia).
  mstep. mstep.
  unfold total_cost_of, trajectory_cost_of, perturbation_cost_of, eff_noise.
  destruct (trajectory_cost (conf c));
    repeat mstep; unfold ret; rewrite ?Hst; reflexivity.
Qed.

Lemma update_loop_run n : forall a c om N,
  omega c = Some om -> noise c = Some N -> a + n <= length (U c) ->
  exists U', update_loop (seq a n) c = (set_U U' c, Ok tt) /\
             length U' = length (U c) /\
             forall t, nth t U' [] =
                       if (a <=? t) && (t <? a + n)
                       then vadd (nth t (U c) [])
                                 (weighted_noise (nu (conf c)) om N t)
                       else nth t (U c) [].
Proof.
  induction n as [|n IH]; intros a c om N Hom HN Hlen.
  - exists (U c). split; [destruct c; reflexivity|]. split; [reflexivity|].
    intros t. destruct (a <=? t) eqn:E1; [|reflexivity].
    destruct (t <? a + 0) eqn:E2; [|reflexivity]. nat_bool. lia.
  - cbn [seq update_loop]. unfold bind at 1, self at 1.
    rewrite Hom. unfold bind at 1, attr at 1, ret at 1.
    rewrite HN. unfold bind at 1, attr at 1, ret at 1.
    destruct (modify_item_ok (U c) a
                (fun row => vadd row (weighted_noise (nu (conf c)) om N a)) []
                ltac:(lia)) as (U1 & E & HL & Hnth).
    rewrite E. unfold bind at 1, lift at 1. unfold bind at 1, assign at 1.
    destruct (IH (S a) (set_U U1 c) om N Hom HN ltac:(cbn; lia))
      as (U2 & E2 & HL2 & Hnth2).
    exists U2. rewrite E2. split; [destruct c; reflexivity|].
    cbn [U set_U conf] in *. split; [congruence|].
    intros t. rewrite Hnth2, Hnth.
    destruct (Nat.eqb_spec t a) as [->|Hne].
    + replace (S a <=? a) with false by (symmetry; apply Nat.leb_gt; lia).
      rewrite Nat.leb_refl. replace (a <? a + S n) with true
        by (symmetry; apply Nat.ltb_lt; lia). reflexivity.
    + destruct (S a <=? t) eqn:E1, (t <? S a + n) eqn:E3,
               (a <=? t) eqn:E4, (t <? a + S n) eqn:E5; cbn; try reflexivity;
        nat_bool; lia.
Qed.

Lemma clamped_length cf U1 sample :
  1 <= K cf -> length sample = K cf ->
  length (clamped cf U1 sample) = K cf.
Proof.
  intros HK HS. unfold clamped, pre_clamp. rewrite length_map.
  apply null_sampled_length; [exact HK|now rewrite length_map].
Qed.

Lemma stacked_actions_length cf U1 st sample :
  1 <= T cf -> 1 <= K cf -> length sample = K cf ->
  length (stacked (snd (run_of cf U1 st sample))) = K cf.
Proof.
  intros HT HK HS. unfold stacked, run_of. rewrite length_map, length_seq.
  destruct (T cf) as [|n]; [lia|]. cbn [seq rollout_loop snd hd].
  unfold mscale, column. rewrite !length_map. now apply clamped_length.
Qed.

Lemma total_cost_length c st sample U1 :
  wf c sample ->
  length (total_cost_of (conf c) U1 st sample) = K (conf c).
Proof.
  intros [HT HK _ _ [HS _] _ _ _ Hcost].
  unfold total_cost_of, vadd. rewrite map2_length.
  assert (H1 : length (trajectory_cost_of (conf c) U1 st sample) = K (conf c)).
  { unfold trajectory_cost_of.
    destruct (trajectory_cost (conf c)) as [tc|] eqn:E.
    - unfold vadd. rewrite map2_length, (Hcost tc eq_refl).
      + unfold zeros. rewrite repeat_length. lia.
      + now apply stacked_actions_length.
    - unfold zeros. apply repeat_length. }
  assert (H2 : length (perturbation_cost_of (conf c) U1 sample) = K (conf c)).
  { unfold perturbation_cost_of, action_cost_of, bmatmul, bscale, eff_noise,
      clamped, pre_clamp.
    rewrite !length_map.
    destruct (noise_abs_cost (conf c)); unfold babs; rewrite ?length_map;
      apply null_sampled_length; rewrite ?length_map; auto. }
  rewrite H1, H2. lia.
Qed.

Lemma get_rollouts_frame st n c : fst (get_rollouts st n c) = c.
Proof.
  unfold get_rollouts, bind, self, lift, ret.
  destruct (view_cols _ _); [|reflexivity].
  destruct (assign_rows _ _ _); [|reflexivity].
  destruct (replay _ _ _ _); reflexivity.
Qed.

Lemma py_recip_factor lam :
  lam <> Fin 0 -> py_recip lam = Ok (factor_of lam).
Proof.
  intros H. destruct lam as [r| | |]; try reflexivity. simpl.
  destruct (Req_dec_T r 0) as [->|_]; [now elim H|reflexivity].
Qed.

(** A call of [command] on a well-formed controller runs up to the update
    and leaves the controller [after_command]; it returns the leading
    actions with the rollout, or raises what [get_rollouts] raises. *)
Lemma command_run c st sample :
  wf c sample ->
  command st sample c =
  (after_command c st sample,
   rbind (snd (get_rollouts st 1 (after_command c st sample)))
         (fun r => Ok (returned_actions (conf c)
                         (U (after_command c st sample)), r))).
Proof.
  intros H.
  pose proof (set_last_shifted _ _ H) as Hsl.
  destruct (shifted_shape _ _ H) as [HshL _].
  pose proof (total_cost_length _ st _ (shifted c) H) as HtcL.
  pose proof H as [HT HK HU Hui [HS HS'] (lo & Hmin & Hlo) _ Hlam Hcost].
  unfold command. mstep. mstep. rewrite Hsl. mstep. mstep. mstep.
  match goal with |- bind (_compute_total_cost_batch _) _ ?c1 = _ =>
    assert (E1 := cost_batch_run c1 st sample HT HK HS eq_refl
                    ltac:(left; cbn; rewrite Hmin; discriminate));
    cbn [conf U cost_total_non_zero omega] in E1;
    rewrite (bind_ok _ _ _ _ _ E1); clear E1
  end.
  set (cost := total_cost_of (conf c) (shifted c) st sample) in *.
  assert (Hmin' : tmin cost = Ok (beta_of cost)).
  { destruct cost; [simpl in HtcL; lia|reflexivity]. }
  rewrite Hmin'. mstep. rewrite (py_recip_factor _ Hlam). mstep.
  set (factor := factor_of (lambda_ (conf c))).
  fold (non_zero_of factor cost). fold (omega_of factor cost).
  mstep. mstep.
  match goal with |- bind (update_loop _) _ ?c2 = _ =>
    destruct (update_loop_run (T (conf c)) 0 c2 (omega_of factor cost)
                (eff_noise (conf c) (shifted c) sample) eq_refl eq_refl
                ltac:(cbn; lia)) as (U' & E2 & HL2 & Hn2);
    rewrite (bind_ok _ _ _ _ _ E2); clear E2
  end.
  cbn [U set_U conf] in HL2, Hn2.
  assert (HU' : U' = updated (nu (conf c)) (omega_of factor cost)
                       (eff_noise (conf c) (shifted c) sample) (shifted c)).
  { apply (nth_ext _ _ [] []).
    - unfold updated. rewrite length_map, length_seq. exact HL2.
    - intros t Ht. change (t < length U') in Ht.
      rewrite Hn2. unfold updated.
      rewrite nth_map_seq by (rewrite <- HL2; exact Ht).
      rewrite HL2, HshL in Ht.
      replace (0 <=? t) with true by (symmetry; apply Nat.leb_le; lia).
      replace (t <? 0 + T (conf c)) with true
        by (symmetry; apply Nat.ltb_lt; lia). reflexivity. }
  mstep.
  assert (Hafter :
    {| conf := conf c; U := U'; state := Some st;
       noise := Some (eff_noise (conf c) (shifted c) sample);
       perturbed_action := Some (clamped (conf c) (shifted c) sample);
       cost_total := Some cost;
       cost_total_non_zero := Some (non_zero_of factor cost);
       omega := Some (omega_of factor cost);
       states := Some (stacked (fst (run_of (conf c) (shifted c) st sample)));
       actions := Some (bdiv (stacked (snd (run_of (conf c) (shifted c) st
                                                   sample)))
                             (u_scale (conf c))) |}
    = after_command c st sample).
  { unfold after_command. fold cost. fold factor. rewrite HU'. reflexivity. }
  rewrite Hafter.
  assert (HUa : U (after_command c st sample) = U')
    by (rewrite HU'; reflexivity).
  unfold returned_actions. rewrite HUa.
  destruct U' as [|u0 Us]; [simpl in HL2; lia|].
  pose proof (get_rollouts_frame st 1 (after_command c st sample)) as Hf.
  unfold bind at 1.
  destruct (u_per_command (conf c) =? 1) eqn:Eu.
  - apply Nat.eqb_eq in Eu. rewrite Eu. cbn [firstn mscale map hd ret].
    unfold bind, ret.
    destruct (get_rollouts st 1 (after_command c st sample)) as [c3 r].
    cbn in Hf. subst c3. destruct r; reflexivity.
  - unfold ret at 1. unfold bind, ret.
    destruct (get_rollouts st 1 (after_command c st sample)) as [c3 r].
    cbn in Hf. subst c3. destruct r; reflexivity.
Qed.

(** ** The weighted update (C1) *)

Lemma sum_dim0_length n rows :
  Forall (fun r => length r = n) rows -> length (sum_dim0 n rows) = n.
Proof.
  induction 1 as [|r rows Hr _ IH]; simpl.
  - apply repeat_length.
  - apply vadd_length; assumption.
Qed.

Lemma weighted_rows_length n om N t :
  Forall (fun Ni => length (nth t Ni []) = n) N ->
  Forall (fun r => length r = n) (map2 vscale om (column [] t N)).
Proof.
  intros HN. revert om. induction HN as [|Ni N Hi _ IH]; intros [|w om];
    simpl; constructor.
  - unfold vscale. now rewrite length_map.
  - apply IH.
Qed.

Lemma vscale_nth w r j :
  j < length r -> nth j (vscale w r) zero = fmul w (nth j r zero).
Proof.
  intros Hj. unfold vscale.
  rewrite (nth_indep _ zero (fmul w zero)) by now rewrite length_map.
  apply map_nth.
Qed.

Lemma weighted_noise_nth n om N t j :
  Forall (fun Ni => length (nth t Ni []) = n) N -> j < n ->
  nth j (weighted_noise n om N t) zero =
  fsum (map2 (fun w Ni => fmul w (nth j (nth t Ni []) zero)) om N).
Proof.
  intros HN Hj. unfold weighted_noise. revert om.
  induction HN as [|Ni N Hi HN IH]; intros [|w om]; simpl;
    try (unfold zeros; now rewrite nth_repeat).
  unfold vadd at 1.
  rewrite (map2_nth fadd _ _ zero zero zero).
  - rewrite vscale_nth by lia. f_equal. apply IH.
  - unfold vscale. rewrite length_map. lia.
  - rewrite sum_dim0_length; [exact Hj|].
    now apply weighted_rows_length.
Qed.



Lemma updated_nth n om N U1 t :
  t < length U1 ->
  nth t (updated n om N U1) [] = vadd (nth t U1 []) (weighted_noise n om N t).
Proof. intros Ht. unfold updated. now rewrite nth_map_seq. Qed.

Lemma eff_noise_shape_wf c sample :
  wf c sample ->
  shape3 (K (conf c)) (T (conf c)) (nu (conf c))
         (eff_noise (conf c) (shifted c) sample).
Proof.
  intros H. pose proof (shifted_shape _ _ H) as HU1.
  destruct H as [_ HK _ _ HS (lo & Hlo & Ll) (hi & Hhi & Lh) _ _].
  now apply eff_noise_shape with (lo := lo) (hi := hi).
Qed.

Lemma weighted_noise_length n om (N : batch) t :
  Forall (fun Ni : mat => length (nth t Ni []) = n) N ->
  length (weighted_noise n om N t) = n.
Proof.
  intros HN. unfold weighted_noise. apply sum_dim0_length.
  now apply weighted_rows_length.
Qed.

Lemma updated_shape k t n om (N : batch) (U1 : mat) :
  shape2 t n U1 -> shape3 k t n N -> shape2 t n (updated n om N U1).
Proof.
  intros HU [_ HN]. pose proof HU as [HL _]. unfold updated. split.
  - now rewrite length_map, length_seq.
  - rewrite Forall_map, Forall_forall. intros i Hi. apply in_seq in Hi.
    apply vadd_length.
    + apply shape2_nth with (r := t); [exact HU|].
      unfold batch, mat, vec in *; lia.
    + apply weighted_noise_length.
      eapply Forall_impl; [|exact HN]. intros Ni HNi.
      apply shape2_nth with (r := t); [exact HNi|].
      unfold batch, mat, vec in *; lia.
Qed.


(** ** The importance weights (C2) *)

Section Weights.

Local Open Scope R_scope.

Lemma fsum_Fin rs : fsum (map Fin rs) = Fin (Rsum rs).
Proof.
  induction rs as [|r rs IH]; [reflexivity|].
  change (fsum (map Fin (r :: rs))) with (fadd (Fin r) (fsum (map Fin rs))).
  now rewrite IH.
Qed.

Lemma fold_fmin_Fin rs : forall r,
  fold_left fmin (map Fin rs) (Fin r) = Fin (Rmin_list r rs).
Proof.
  induction rs as [|x rs IH]; intros r; [reflexivity|]. simpl. apply IH.
Qed.

Lemma beta_of_Fin r rs : beta_of (map Fin (r :: rs)) = Fin (Rmin_list r rs).
Proof. unfold beta_of. simpl. apply fold_fmin_Fin. Qed.

Lemma Rmin_list_le rs : forall r,
  Rmin_list r rs <= r /\ forall x, In x rs -> Rmin_list r rs <= x.
Proof.
  induction rs as [|y rs IH]; intros r; simpl.
  - split; [lra|contradiction].
  - destruct (IH (Rmin r y)) as [H1 H2].
    pose proof (Rmin_l r y). pose proof (Rmin_r r y).
    split; [lra|]. intros x [<-|Hx]; [lra|auto].
Qed.

Lemma Rmin_list_In rs : forall r, In (Rmin_list r rs) (r :: rs).
Proof.
  induction rs as [|y rs IH]; intros r; simpl; [now left|].
  destruct (IH (Rmin r y)) as [E|Hin]; [|now right; right].
  unfold Rmin in E at 1. destruct (Rle_dec r y); [now left|right; now left].
Qed.

Lemma Rsum_scale a ws : Rsum (map (fun w => a * w) ws) = a * Rsum ws.
Proof. induction ws as [|w ws IH]; simpl; [ring|rewrite IH; ring]. Qed.

Lemma Rsum_nonneg ws : (forall w, In w ws -> 0 <= w) -> 0 <= Rsum ws.
Proof.
  induction ws as [|w ws IH]; simpl; intros H; [lra|].
  assert (0 <= w) by auto. assert (0 <= Rsum ws) by auto. lra.
Qed.

Lemma Rsum_ge_member ws x :
  (forall w, In w ws -> 0 <= w) -> In x ws -> x <= Rsum ws.
Proof.
  induction ws as [|w ws IH]; simpl; intros H Hx; [contradiction|].
  assert (0 <= w) by auto.
  assert (0 <= Rsum ws) by (apply Rsum_nonneg; auto).
  destruct Hx as [->|Hx]; [lra|]. assert (x <= Rsum ws) by auto. lra.
Qed.

Lemma Rsum_ones ws :
  (forall w, In w ws -> w = 1) -> Rsum ws = INR (length ws).
Proof.
  induction ws as [|w ws IH]; intros H; [reflexivity|].
  cbn [Rsum fold_right length]. rewrite S_INR.
  fold (Rsum ws). rewrite IH by (intros; apply H; now right).
  rewrite (H w) by now left. ring.
Qed.

Variables (l : R) (rs : list R).

Hypothesis rs_nonempty : rs <> [].

Lemma beta_le r : In r rs -> (beta rs) <= r.
Proof.
  unfold beta. destruct rs as [|r0 rs']; [contradiction|]. simpl.
  destruct (Rmin_list_le rs' r0) as [H1 H2]. intros [<-|Hr]; auto.
Qed.

Lemma beta_In : In (beta rs) rs.
Proof.
  unfold beta. destruct rs as [|r0 rs']; [congruence|]. simpl.
  apply Rmin_list_In.
Qed.

Lemma weight_pos r : 0 < (weight l rs) r.
Proof. apply exp_pos. Qed.

Lemma weight_beta : (weight l rs) (beta rs) = 1.
Proof.
  unfold weight. replace (- ((beta rs) - (beta rs)) / l) with 0
    by (unfold Rdiv; ring). apply exp_0.
Qed.

Lemma eta_ge_1 : 1 <= (eta l rs).
Proof.
  rewrite <- weight_beta. apply Rsum_ge_member.
  - intros w Hw. apply in_map_iff in Hw as (r & <- & _).
    left. apply weight_pos.
  - apply in_map. apply beta_In.
Qed.

Lemma non_zero_of_Fin :
  non_zero_of (factor_of (Fin l)) (map Fin rs) =
  map (fun r => Fin ((weight l rs) r)) rs.
Proof.
  unfold non_zero_of, _ensure_non_zero.
  assert (Hb : beta_of (map Fin rs) = Fin (beta rs)).
  { unfold beta. destruct rs as [|r0 rs']; [congruence|]. apply beta_of_Fin. }
  rewrite Hb, map_map. apply map_ext. intros r. simpl. unfold weight.
  do 2 f_equal. unfold Rdiv, Rminus. ring.
Qed.

Lemma omega_of_Fin :
  omega_of (factor_of (Fin l)) (map Fin rs) =
  map (fun r => Fin ((weight l rs) r / (eta l rs))) rs.
Proof.
  unfold omega_of. rewrite non_zero_of_Fin.
  replace (map (fun r => Fin ((weight l rs) r)) rs) with (map Fin (map (weight l rs) rs))
    by now rewrite map_map.
  rewrite fsum_Fin. fold (eta l rs). pose proof eta_ge_1 as He.
  unfold fdiv, one. destruct (Req_dec_T (eta l rs) 0) as [E|_]; [lra|].
  unfold vscale. rewrite !map_map. apply map_ext. intros r. simpl.
  f_equal. unfold Rdiv. ring.
Qed.

Lemma omega_sum : fsum (map (fun r => Fin ((weight l rs) r / (eta l rs))) rs) = Fin 1.
Proof.
  replace (map (fun r => Fin ((weight l rs) r / (eta l rs))) rs)
    with (map Fin (map (fun w => / (eta l rs) * w) (map (weight l rs) rs))).
  - rewrite fsum_Fin, Rsum_scale. fold (eta l rs). f_equal.
    pose proof eta_ge_1. field. lra.
  - rewrite !map_map. apply map_ext. intros r. f_equal. unfold Rdiv. ring.
Qed.

Lemma omega_uniform :
  (forall r, In r rs -> r = hd 0 rs) ->
  forall r, In r rs -> (weight l rs) r / (eta l rs) = 1 / INR (length rs).
Proof.
  intros Heq.
  assert (Hb : (beta rs) = hd 0 rs) by (apply Heq, beta_In).
  assert (Hw : forall r, In r rs -> (weight l rs) r = 1).
  { intros r Hr. rewrite (Heq r Hr), <- Hb. apply weight_beta. }
  assert (He : (eta l rs) = INR (length rs)).
  { unfold eta. rewrite Rsum_ones, length_map; [reflexivity|].
    intros w Hin. apply in_map_iff in Hin as (r & <- & Hr). now apply Hw. }
  intros r Hr. now rewrite (Hw r Hr), He.
Qed.

End Weights.

Lemma finite_costs_length c st sample rs :
  wf c sample ->
  cost_total (fst (command st sample c)) = Some (map Fin rs) ->
  length rs = K (conf c) /\ rs <> [].
Proof.
  intros H. rewrite (command_run c st sample H). cbn [fst after_command cost_total].
  intros E. injection E as E.
  pose proof (total_cost_length c st sample (shifted c) H) as HL.
  rewrite E, length_map in HL. split; [exact HL|].
  destruct H as [_ HK _ _ _ _ _ _ _]. intros ->. simpl in HL. lia.
Qed.

(** C2: for finite total costs the weights are
    [exp(-(cost_i - beta) / lambda)], with [beta] the minimum total cost,
    divided by their sum; the K weights sum to 1, and when all the total
    costs are equal every weight is [1 / K]. *)
Theorem importance_weights_normalised c st sample l rs :
  wf c sample ->
  lambda_ (conf c) = Fin l ->
  cost_total (fst (command st sample c)) = Some (map Fin rs) ->
  let c' := fst (command st sample c) in
  (In (beta rs) rs /\ forall r, In r rs -> (beta rs <= r)%R) /\
  cost_total_non_zero c' = Some (map (fun r => Fin (weight l rs r)) rs) /\
  omega c' = Some (map (fun r => Fin (weight l rs r / eta l rs)) rs) /\
  length rs = K (conf c) /\
  fsum (map (fun r => Fin (weight l rs r / eta l rs)) rs) = Fin 1 /\
  ((forall r, In r rs -> r = hd 0%R rs) ->
   forall r, In r rs ->
             (weight l rs r / eta l rs = 1 / INR (K (conf c)))%R).
Proof.
  intros H Hl Hc c'.
  destruct (finite_costs_length c st sample rs H Hc) as [HL Hne].
  subst c'. revert Hc. rewrite (command_run c st sample H).
  cbn [fst after_command cost_total cost_total_non_zero omega].
  intros Hc. injection Hc as Hc. rewrite Hc, Hl.
  repeat split.
  - now apply beta_In.
  - intros r Hr. now apply beta_le.
  - now rewrite non_zero_of_Fin.
  - now rewrite omega_of_Fin.
  - exact HL.
  - now apply omega_sum.
  - intros Heq r Hr. rewrite <- HL. now apply omega_uniform.
Qed.

(** ** The weights over the range of [torch.exp] (C10) *)


Lemma fexp_model : exp_model fexp.
Proof.
  split.
  - simpl. now rewrite exp_0.
  - intros r Hr. exists (exp r). split; [reflexivity|].
    split; [left; apply exp_pos|].
    destruct Hr as [Hr | ->]; [|rewrite exp_0; lra].
    left. rewrite <- exp_0. now apply exp_increasing.
Qed.

Lemma torch_exp_model : exp_model torch_exp.
Proof.
  split.
  - unfold torch_exp.
    destruct (Rlt_dec 0 (-746)) as [H|_]; [lra|].
    destruct (Rlt_dec 710 0) as [H|_]; [lra|]. now rewrite exp_0.
  - intros r Hr. unfold torch_exp.
    destruct (Rlt_dec r (-746)) as [_|_]; [exists 0%R; split; [reflexivity|lra]|].
    destruct (Rlt_dec 710 r) as [H|_]; [lra|].
    destruct (fexp_model) as [_ Hx]. exact (Hx r Hr).
Qed.

(** A call of [command_with ex] on a well-formed controller leaves the
    controller [after_command_with ex]. *)
Lemma command_with_state ex c st sample :
  wf c sample ->
  fst (command_with ex st sample c) = after_command_with ex c st sample.
Proof.
  intros H.
  pose proof (set_last_shifted _ _ H) as Hsl.
  destruct (shifted_shape _ _ H) as [HshL _].
  pose proof (total_cost_length _ st _ (shifted c) H) as HtcL.
  pose proof H as [HT HK HU Hui [HS HS'] (lo & Hmin & Hlo) _ Hlam Hcost].
  unfold command_with. mstep. mstep. rewrite Hsl. mstep. mstep. mstep.
  match goal with |- fst (bind (_compute_total_cost_batch _) _ ?c1) = _ =>
    assert (E1 := cost_batch_run c1 st sample HT HK HS eq_refl
                    ltac:(left; cbn; rewrite Hmin; discriminate));
    cbn [conf U cost_total_non_zero omega] in E1;
    rewrite (bind_ok _ _ _ _ _ E1); clear E1
  end.
  set (cost := total_cost_of (conf c) (shifted c) st sample) in *.
  assert (Hmin' : tmin cost = Ok (beta_of cost)).
  { destruct cost; [simpl in HtcL; lia|reflexivity]. }
  rewrite Hmin'. mstep. rewrite (py_recip_factor _ Hlam). mstep.
  set (factor := factor_of (lambda_ (conf c))).
  fold (non_zero_with ex factor cost). fold (omega_with ex factor cost).
  mstep. mstep.
  match goal with |- fst (bind (update_loop _) _ ?c2) = _ =>
    destruct (update_loop_run (T (conf c)) 0 c2 (omega_with ex factor cost)
                (eff_noise (conf c) (shifted c) sample) eq_refl eq_refl
                ltac:(cbn; lia)) as (U' & E2 & HL2 & Hn2);
    rewrite (bind_ok _ _ _ _ _ E2); clear E2
  end.
  cbn [U set_U conf] in HL2, Hn2.
  assert (HU' : U' = updated (nu (conf c)) (omega_with ex factor cost)
                       (eff_noise (conf c) (shifted c) sample) (shifted c)).
  { apply (nth_ext _ _ [] []).
    - unfold updated. rewrite length_map, length_seq. exact HL2.
    - intros t Ht. change (t < length U') in Ht.
      rewrite Hn2. unfold updated.
      rewrite nth_map_seq by (rewrite <- HL2; exact Ht).
      rewrite HL2, HshL in Ht.
      replace (0 <=? t) with true by (symmetry; apply Nat.leb_le; lia).
      replace (t <? 0 + T (conf c)) with true
        by (symmetry; apply Nat.ltb_lt; lia). reflexivity. }
  mstep.
  assert (Hafter :
    {| conf := conf c; U := U'; state := Some st;
       noise := Some (eff_noise (conf c) (shifted c) sample);
       perturbed_action := Some (clamped (conf c) (shifted c) sample);
       cost_total := Some cost;
       cost_total_non_zero := Some (non_zero_with ex factor cost);
       omega := Some (omega_with ex factor cost);
       states := Some (stacked (fst (run_of (conf c) (shifted c) st sample)));
       actions := Some (bdiv (stacked (snd (run_of (conf c) (shifted c) st
                                                   sample)))
                             (u_scale (conf c))) |}
    = after_command_with ex c st sample).
  { unfold after_command_with. fold cost. fold factor. rewrite HU'.
    reflexivity. }
  rewrite Hafter.
  destruct U' as [|u0 Us]; [simpl in HL2; lia|].
  pose proof (get_rollouts_frame st 1 (after_command_with ex c st sample))
    as Hf.
  unfold bind at 1.
  destruct (u_per_command (conf c) =? 1) eqn:Eu.
  - apply Nat.eqb_eq in Eu. rewrite Eu. cbn [firstn mscale map hd ret].
    unfold bind, ret.
    destruct (get_rollouts st 1 (after_command_with ex c st sample))
      as [c3 r].
    cbn in Hf. subst c3. destruct r; reflexivity.
  - unfold ret at 1. unfold bind, ret.
    destruct (get_rollouts st 1 (after_command_with ex c st sample))
      as [c3 r].
    cbn in Hf. subst c3. destruct r; reflexivity.
Qed.


Section RangedWeights.

Local Open Scope R_scope.

Variable ex : scalar -> scalar.
Hypothesis ex_ok : exp_model ex.
Variables (l : R) (rs : list R).
Hypothesis l_pos : 0 < l.
Hypothesis rs_nonempty : rs <> [].





End RangedWeights.


(** ** Clamping (C3) *)

Lemma clamp_scalar_within a b x :
  fle a b -> ~ is_nan x ->
  fle a (fmin (fmax x a) b) /\ fle (fmin (fmax x a) b) b.
Proof.
  destruct a as [a| | |], b as [b| | |], x as [x| | |]; simpl;
    intros Hab Hx; try tauto;
    unfold Rmin, Rmax; repeat destruct (Rle_dec _ _); split; lra.
Qed.

Lemma clamp_row_within lo hi : forall row,
  Forall2 fle lo hi -> length row = length lo ->
  Forall (fun x => ~ is_nan x) row ->
  within lo hi (clamp_row (Some lo) (Some hi) row).
Proof.
  unfold clamp_row, within. intros row H. revert row.
  induction H as [|a b lo hi Hab _ IH]; intros [|x row] Hlen Hnan;
    simpl in *; try discriminate; [split; constructor|].
  inversion Hnan as [|? ? Hx Hrow]; subst.
  destruct (IH row) as [I1 I2]; [lia|assumption|].
  destruct (clamp_scalar_within a b x Hab Hx).
  split; constructor; assumption.
Qed.

Lemma clamped_within cf U1 sample lo hi :
  u_min cf = Some lo -> u_max cf = Some hi -> length lo = nu cf ->
  Forall2 fle lo hi ->
  shape3 (K cf) (T cf) (nu cf) (pre_clamp cf U1 sample) ->
  all_entries (fun x => ~ is_nan x) (pre_clamp cf U1 sample) ->
  Forall (Forall (within lo hi)) (clamped cf U1 sample).
Proof.
  intros Hlo Hhi Hl Hle [_ Hs] Hn. unfold clamped. rewrite Hlo, Hhi.
  unfold all_entries in Hn. rewrite Forall_forall in *.
  intros m Hm. apply in_map_iff in Hm as (m0 & <- & Hm0).
  specialize (Hs m0 Hm0). specialize (Hn m0 Hm0). destruct Hs as [_ Hs].
  rewrite Forall_forall in *.
  intros row Hrow. apply in_map_iff in Hrow as (r0 & <- & Hr0).
  apply clamp_row_within; auto. rewrite Hl. auto.
Qed.

(** C3 (amended): with both bounds set, [u_min <= u_max] in every dimension
    and no NaN among the perturbed actions, every clamped perturbed action
    lies within the bounds of its dimension; the noise kept for the
    control-effort cost and for the weighted update is the clamped perturbed
    action minus the (shifted) U. *)
Theorem clamped_actions_within_bounds c st sample lo hi :
  wf c sample ->
  u_min (conf c) = Some lo -> u_max (conf c) = Some hi ->
  Forall2 fle lo hi ->
  (forall P0, perturb (conf c) (shifted c) sample = Ok P0 ->
              all_entries (fun x => ~ is_nan x) P0) ->
  let cf := conf c in
  let c' := fst (command st sample c) in
  exists P N om,
    perturbed_action c' = Some P /\
    shape3 (K cf) (T cf) (nu cf) P /\
    Forall (Forall (within lo hi)) P /\
    noise c' = Some N /\
    N = map (fun Pi => msub Pi (shifted c)) P /\
    omega c' = Some om /\
    cost_total c' =
      Some (vadd (trajectory_cost_of cf (shifted c) st sample)
                 (map (fun Ai => msum (mmul (shifted c) Ai))
                      (action_cost_of cf N))) /\
    U c' = updated (nu cf) om N (shifted c).
Proof.
  intros H Hlo Hhi Hle Hnan cf c'. subst c'.
  rewrite (command_run c st sample H).
  cbn [fst after_command perturbed_action noise omega cost_total U]. fold cf.
  pose proof (shifted_shape _ _ H) as HU1.
  pose proof H as [_ HK _ _ HS (lo' & Hlo' & Ll) (hi' & Hhi' & Lh) _ _].
  assert (lo' = lo) by congruence. assert (hi' = hi) by congruence.
  subst lo' hi'.
  eexists _, _, _. repeat split.
  - eapply clamped_shape; eauto.
  - eapply clamped_shape; eauto.
  - apply clamped_within; auto.
    + now apply pre_clamp_shape.
    + apply Hnan. apply perturb_ok; [exact HK|apply HS].
Qed.

(** ** The example controllers are well formed *)

Ltac real_eq := unfold Rmin, Rmax; repeat destruct (Rle_dec _ _); lra.

Ltac wf_cost_tac :=
  let tc := fresh "tc" in
  let E := fresh "E" in
  intros tc E; cbn in E;
  first [ discriminate E
        | injection E as <-; intros ? ? ?;
          unfold sum_of_actions, nan_cost; rewrite length_map; assumption ].

Ltac wf_tac :=
  constructor;
  [ cbn; lia
  | cbn; lia
  | split; [reflexivity | repeat constructor]
  | reflexivity
  | split; [reflexivity | repeat constructor]
  | eexists; split; reflexivity
  | eexists; split; reflexivity
  | cbn; unfold one; intros E; injection E; lra
  | wf_cost_tac ].

Lemma demo_wf : wf demo demo_sample.
Proof. wf_tac. Qed.

Lemma negative_max_wf : wf negative_max zero_sample.
Proof. wf_tac. Qed.

Lemma nan_costed_wf : wf nan_costed zero_sample.
Proof. wf_tac. Qed.

Lemma scaled_wf : wf scaled unit_sample.
Proof. wf_tac. Qed.

Lemma bounded_unit_wf : wf bounded_unit five_sample.
Proof. wf_tac. Qed.

(** A sampled perturbation of +5 under bounds [-1, 1]: the clamped action is
    1 and the noise kept is 1 minus the nominal action, not 5. *)
Example clamp_of_large_perturbation :
  perturbed_action (fst (command demo_state five_sample bounded_unit))
  = Some [[[Fin 1]]] /\
  noise (fst (command demo_state five_sample bounded_unit))
  = Some [[[Fin (1 - 0)%R]]].
Proof.
  rewrite (command_run _ _ _ bounded_unit_wf).
  cbn [fst after_command perturbed_action noise]. cbn.
  split; apply f_equal; do 3 (apply f_equal2; [|reflexivity]);
    apply f_equal; real_eq.
Qed.

(** [negative_max] is what [__init__] builds from [u_max = -1] alone. *)
Lemma negative_max_init :
  init hold None 1 (T2 [[one]]) 1 1 one None None (Some [Fin (-1)]) None
       (Some [[zero]]) one 1 false false false [[one]] [[zero]]
  = Ok negative_max.
Proof.
  unfold init, init_bounds. cbn [map fneg].
  replace (- -1)%R with 1%R by lra. reflexivity.
Qed.

(** [unbounded] is what [__init__] builds when no bound is given. *)
Lemma unbounded_init :
  init hold None 1 (T2 [[one]]) 1 1 one None None None None
       (Some [[zero]]) one 1 false false false [[one]] [[zero]]
  = Ok unbounded.
Proof. reflexivity. Qed.

(** The claim of C3 fails as stated: with [u_min = 1] and [u_max = -1] (what
    [__init__] derives from [u_max = -1] alone) the clamped action is not
    within the bounds. *)
Lemma clamp_inverted_bounds_counterexample :
  ~ (forall lo hi P,
        u_min (conf negative_max) = Some lo ->
        u_max (conf negative_max) = Some hi ->
        perturbed_action (fst (command demo_state zero_sample negative_max))
          = Some P ->
        Forall (Forall (within lo hi)) P).
Proof.
  intros Hclaim.
  assert (Hp : perturbed_action
                 (fst (command demo_state zero_sample negative_max))
               = Some (clamped (conf negative_max) (shifted negative_max)
                               zero_sample)).
  { now rewrite (command_run _ _ _ negative_max_wf). }
  specialize (Hclaim [Fin 1] [Fin (-1)] _ eq_refl eq_refl Hp).
  cbn in Hclaim.
  inversion Hclaim as [|? ? Hm _]; subst.
  inversion Hm as [|? ? [Hlo Hhi] _]; subst.
  inversion Hlo as [|? ? ? ? H1 _]; subst.
  inversion Hhi as [|? ? ? ? H2 _]; subst.
  cbn in H1, H2. lra.
Qed.

Lemma bind_raise {A B} (m : M A) (k : A -> M B) c c' e :
  m c = (c', Raise e) -> bind m k c = (c', Raise e).
Proof. intros E. unfold bind. now rewrite E. Qed.

Lemma cost_batch_without_bounds c st sample :
  1 <= K (conf c) -> length sample = K (conf c) -> state c = Some st ->
  u_min (conf c) = None -> u_max (conf c) = None ->
  exists c', _compute_total_cost_batch sample c = (c', Raise RuntimeError) /\
             U c' = U c.
Proof.
  intros HK HS Hst Hlo Hhi. unfold _compute_total_cost_batch.
  mstep. mstep. rewrite Hst. mstep. mstep. mstep.
  rewrite (perturb_ok _ (U c) _ HK HS). mstep. mstep.
  rewrite Hlo, Hhi. cbn [clamp]. rewrite bind_lift_raise.
  eexists. split; reflexivity.
Qed.

(** With no bounds configured the clamp raises and the call of [command]
    ends there: U is shifted and not updated. *)
Lemma command_without_bounds_raises c st sample :
  1 <= T (conf c) -> 1 <= K (conf c) ->
  shape2 (T (conf c)) (nu (conf c)) (U c) ->
  length (u_init (conf c)) = nu (conf c) ->
  length sample = K (conf c) ->
  u_min (conf c) = None -> u_max (conf c) = None ->
  snd (command st sample c) = Raise RuntimeError /\
  U (fst (command st sample c)) = shifted c.
Proof.
  intros HT HK [HU FU] Hu HS Hlo Hhi.
  assert (Hsl : set_last (roll_left (U c)) (u_init (conf c)) = Ok (shifted c)).
  { unfold shifted, set_last.
    destruct (U c) as [|r rs]; [simpl in HU; lia|].
    simpl roll_left. rewrite rev_app_distr. simpl.
    inversion FU as [|? ? Hr Hrs]; subst.
    unfold broadcast_vec. rewrite Hu, Hr, Nat.eqb_refl. reflexivity. }
  unfold command. mstep. mstep. rewrite Hsl. mstep. mstep. mstep.
  match goal with |- context [bind (_compute_total_cost_batch _) _ ?c1] =>
    destruct (cost_batch_without_bounds c1 st sample HK HS eq_refl Hlo Hhi)
      as (c' & E & HU')
  end.
  rewrite (bind_raise _ _ _ _ _ E). cbn [fst snd]. split; [reflexivity|].
  exact HU'.
Qed.

(** ** Non-finite costs (C4) *)

Lemma fmin_NaN_l x : fmin NaN x = NaN.
Proof. reflexivity. Qed.

Lemma fmin_NaN_r x : fmin x NaN = NaN.
Proof. destruct x; reflexivity. Qed.

Lemma fadd_NaN_r x : fadd x NaN = NaN.
Proof. destruct x; reflexivity. Qed.

Lemma fmul_NaN_r x : fmul x NaN = NaN.
Proof. destruct x; reflexivity. Qed.

Lemma fold_fmin_NaN l : fold_left fmin l NaN = NaN.
Proof. induction l as [|x l IH]; [reflexivity|exact IH]. Qed.

Lemma fold_fmin_In_NaN l : forall a, In NaN l -> fold_left fmin l a = NaN.
Proof.
  induction l as [|x l IH]; intros a; [contradiction|].
  intros [->|Hin]; simpl.
  - rewrite fmin_NaN_r. apply fold_fmin_NaN.
  - now apply IH.
Qed.

Lemma beta_of_NaN cs : In NaN cs -> beta_of cs = NaN.
Proof.
  unfold beta_of. destruct cs as [|x xs]; [contradiction|].
  intros [->|Hin]; simpl; [apply fold_fmin_NaN|now apply fold_fmin_In_NaN].
Qed.

Lemma omega_of_NaN f cs :
  In NaN cs -> omega_of f cs = repeat NaN (length cs).
Proof.
  intros Hin. unfold omega_of, non_zero_of, _ensure_non_zero.
  rewrite (beta_of_NaN cs Hin).
  assert (E : map (fun c => fexp (fmul (fneg f) (fsub c NaN))) cs
              = repeat NaN (length cs)).
  { clear Hin. induction cs as [|c cs IH]; [reflexivity|].
    simpl. rewrite IH. unfold fsub. simpl fneg.
    now rewrite fadd_NaN_r, fmul_NaN_r. }
  rewrite E. destruct cs as [|c cs]; [contradiction|].
  cbn [length repeat fsum fold_right fadd fdiv]. unfold one.
  cbn [fdiv]. unfold vscale. cbn [map fmul]. f_equal.
  clear. induction (length cs) as [|n IH]; [reflexivity|].
  simpl. now rewrite IH.
Qed.

Lemma vscale_NaN r : vscale NaN r = repeat NaN (length r).
Proof. induction r as [|x r IH]; [reflexivity|]. simpl. now rewrite IH. Qed.

Lemma vadd_NaN_l n v : length v = n -> vadd (repeat NaN n) v = repeat NaN n.
Proof.
  revert v. induction n as [|n IH]; intros [|x v] Hv; simpl in Hv;
    try discriminate; [reflexivity|].
  change (vadd (repeat NaN (S n)) (x :: v))
    with (fadd NaN x :: vadd (repeat NaN n) v).
  rewrite IH by lia. reflexivity.
Qed.

Lemma vadd_NaN_r n v : length v = n -> vadd v (repeat NaN n) = repeat NaN n.
Proof.
  revert v. induction n as [|n IH]; intros [|x v] Hv; simpl in Hv;
    try discriminate; [reflexivity|].
  change (vadd (x :: v) (repeat NaN (S n)))
    with (fadd x NaN :: vadd v (repeat NaN n)).
  rewrite IH by lia. now rewrite fadd_NaN_r.
Qed.

Lemma weighted_noise_NaN n k N t :
  1 <= k -> length N = k ->
  Forall (fun Ni => length (nth t Ni []) = n) N ->
  weighted_noise n (repeat NaN k) N t = repeat NaN n.
Proof.
  intros Hk HN HF. unfold weighted_noise.
  destruct k as [|k]; [lia|]. destruct N as [|N0 N]; [discriminate|].
  apply Forall_cons_iff in HF as [H0 HF'].
  cbn [repeat column map map2 sum_dim0 fold_right].
  rewrite vscale_NaN, H0. apply vadd_NaN_l.
  apply sum_dim0_length. now apply weighted_rows_length.
Qed.

(** When a total cost is NaN, every weight is NaN and so is every entry of
    the U that [command] leaves. *)
Lemma nan_cost_poisons_U c st sample cs :
  wf c sample ->
  cost_total (fst (command st sample c)) = Some cs -> In NaN cs ->
  omega (fst (command st sample c)) = Some (repeat NaN (K (conf c))) /\
  U (fst (command st sample c))
  = repeat (repeat NaN (nu (conf c))) (T (conf c)).
Proof.
  intros H. rewrite (command_run c st sample H).
  cbn [fst after_command cost_total omega U]. intros E Hin.
  injection E as E.
  pose proof (total_cost_length c st sample (shifted c) H) as HL.
  rewrite E in *. rewrite (omega_of_NaN _ cs Hin), HL.
  split; [reflexivity|].
  destruct (shifted_shape _ _ H) as [HsL HsF].
  destruct (eff_noise_shape_wf _ _ H) as [HNL HNF].
  pose proof H as [_ HK _ _ _ _ _ _ _].
  apply (nth_ext _ _ [] []).
  - unfold updated. now rewrite length_map, length_seq, repeat_length.
  - intros t Ht. unfold updated in Ht. rewrite length_map, length_seq in Ht.
    rewrite updated_nth by exact Ht.
    rewrite nth_repeat_lt by (rewrite <- HsL; exact Ht).
    rewrite weighted_noise_NaN with (k := K (conf c)); auto.
    + apply vadd_NaN_r. rewrite Forall_forall in HsF.
      apply HsF, nth_In. exact Ht.
    + eapply Forall_impl; [|exact HNF]. intros Ni HNi.
      apply shape2_nth with (r := T (conf c)); [exact HNi|lia].
Qed.

(** The claim of C4 fails as stated: with a cost boundary that returns NaN,
    the total cost is NaN and U after the call is not the U before it. *)
Lemma nan_cost_update_counterexample :
  ~ (forall cs,
        cost_total (fst (command demo_state zero_sample nan_costed)) = Some cs ->
        Exists (fun x => ~ is_finite x) cs ->
        U (fst (command demo_state zero_sample nan_costed)) = U nan_costed).
Proof.
  intros Hclaim.
  assert (Hc : cost_total (fst (command demo_state zero_sample nan_costed))
               = Some [NaN]).
  { rewrite (command_run _ _ _ nan_costed_wf). reflexivity. }
  assert (Hex : Exists (fun x => ~ is_finite x) [NaN])
    by (apply Exists_cons_hd; exact (fun f => f)).
  specialize (Hclaim [NaN] Hc Hex).
  destruct (nan_cost_poisons_U _ _ _ _ nan_costed_wf Hc (or_introl eq_refl))
    as [_ HU].
  rewrite HU in Hclaim. discriminate Hclaim.
Qed.

(** C4 (amended): [command] has no check on the total costs.  In a call in
    which some total cost is NaN the update runs as in any other call: the
    weights are all NaN, they are folded into the shifted U and every entry
    of the post-call U is NaN; the call reports nothing about it and returns
    the leading actions with the rollout, or raises what [get_rollouts]
    raises. *)
Theorem nan_cost_is_folded_into_U c st sample cs :
  wf c sample ->
  cost_total (fst (command st sample c)) = Some cs -> In NaN cs ->
  let cf := conf c in
  let c' := fst (command st sample c) in
  exists N,
    noise c' = Some N /\
    omega c' = Some (repeat NaN (K cf)) /\
    U c' = updated (nu cf) (repeat NaN (K cf)) N (shifted c) /\
    U c' = repeat (repeat NaN (nu cf)) (T cf) /\
    snd (command st sample c)
    = rbind (snd (get_rollouts st 1 c'))
            (fun r => Ok (returned_actions cf (U c'), r)).
Proof.
  intros H Hc Hin cf c'. subst c'.
  destruct (nan_cost_poisons_U c st sample cs H Hc Hin) as [Hom HU].
  pose proof (command_run c st sample H) as Hrun.
  exists (eff_noise cf (shifted c) sample).
  split; [now rewrite Hrun|]. split; [exact Hom|].
  split; [|split; [exact HU|now rewrite Hrun]].
  rewrite Hrun in Hom |- *. cbn [fst after_command omega U] in Hom |- *.
  injection Hom as Hom. fold cf in Hom |- *. now rewrite Hom.
Qed.

(** ** The state argument (C5) *)

Lemma concat_shape k n m : shape2 k n m -> length (concat m) = k * n.
Proof.
  intros [Hl Hf]. subst k. induction Hf as [|r m Hr _ IH]; [reflexivity|].
  simpl. rewrite length_app, IH, Hr. reflexivity.
Qed.

Lemma chunks_length size count flat : length (chunks size count flat) = count.
Proof. unfold chunks. now rewrite length_map, length_seq. Qed.

Lemma view_one_row flat : view_rows 1 flat = Ok [flat].
Proof.
  unfold view_rows. cbn [Nat.eqb]. rewrite Nat.mod_1_r. cbn [Nat.eqb].
  unfold chunks. cbn [seq map Nat.mul skipn]. now rewrite Nat.div_1_r, firstn_all.
Qed.

Lemma assign_rows_same n nx0 m :
  1 <= n -> shape2 n nx0 m -> assign_rows n nx0 m = Ok m.
Proof.
  intros Hn [Hl Hf]. unfold assign_rows, ncols.
  destruct m as [|r m']; [simpl in Hl; lia|].
  inversion Hf as [|? ? Hr Hf']; subst. cbn [hd].
  replace (length (r :: m') =? 0) with false
    by (symmetry; apply Nat.eqb_neq; simpl; lia).
  rewrite !Nat.eqb_refl. cbn [orb andb]. f_equal.
  rewrite <- (map_id (r :: m')) at 2. apply map_ext. reflexivity.
Qed.

(** A supplied batch of [K >= 2] states makes [get_rollouts(state)], called
    with the default [num_rollouts = 1], raise. *)
Lemma get_rollouts_batch_raises c m k :
  2 <= k -> 1 <= nx (conf c) -> shape2 k (nx (conf c)) m ->
  snd (get_rollouts (T2 m) 1 c) = Raise RuntimeError.
Proof.
  intros Hk Hnx Hm. unfold get_rollouts, bind, self, lift. cbn [flatten].
  unfold view_cols. rewrite (concat_shape _ _ _ Hm).
  replace (nx (conf c) =? 0) with false by (symmetry; apply Nat.eqb_neq; lia).
  rewrite Nat.Div0.mod_mul, Nat.div_mul by lia. cbn [Nat.eqb].
  rewrite chunks_length.
  replace (k =? 1) with false by (symmetry; apply Nat.eqb_neq; lia).
  unfold assign_rows. rewrite chunks_length.
  replace (k =? 0) with false by (symmetry; apply Nat.eqb_neq; lia).
  replace (k =? 1) with false by (symmetry; apply Nat.eqb_neq; lia).
  reflexivity.
Qed.

(** The general form of the defect: with [K >= 2] every call of [command]
    on a batch of K states updates U and then raises. *)
Lemma command_batch_raises c m sample :
  wf c sample -> 2 <= K (conf c) -> 1 <= nx (conf c) ->
  shape2 (K (conf c)) (nx (conf c)) m ->
  command (T2 m) sample c = (after_command c (T2 m) sample, Raise RuntimeError).
Proof.
  intros H HK Hnx Hm. rewrite (command_run c (T2 m) sample H).
  rewrite (get_rollouts_batch_raises _ m (K (conf c))); auto.
Qed.

Lemma initial_states_single cf v :
  initial_states cf (T1 v) = repeat v (K cf).
Proof. reflexivity. Qed.

Lemma forallb_shape n (m : mat) :
  Forall (fun row => length row = n) m ->
  forallb (fun row => length row =? n) m = true.
Proof.
  induction 1 as [|r m Hr _ IH]; [reflexivity|].
  simpl. now rewrite Hr, Nat.eqb_refl, IH.
Qed.

Lemma initial_states_batch cf m :
  shape2 (K cf) (nx cf) m -> initial_states cf (T2 m) = m.
Proof.
  intros [Hl Hf]. unfold initial_states, shape_is.
  now rewrite Hl, Nat.eqb_refl, forallb_shape.
Qed.

Lemma replay_single cf Us : forall cur,
  (forall s u ot, shape2 1 (nx cf) s -> shape2 1 (nx cf) (F cf s u ot)) ->
  shape2 1 (nx cf) cur ->
  exists tl, replay cf 1 Us cur = Ok tl /\ length tl = length Us /\
             Forall (shape2 1 (nx cf)) tl.
Proof.
  induction Us as [|[t ut] Us IH]; intros cur HF Hcur.
  - exists []. repeat split. constructor.
  - cbn [replay]. rewrite !view_one_row. cbn [rbind].
    destruct cur as [|row [|? ?]]; try (destruct Hcur as [Hc _]; discriminate).
    cbn [concat]. rewrite app_nil_r.
    set (nxt := _dynamics cf [row] (mscale (u_scale cf) [ut]) t).
    assert (Hn : shape2 1 (nx cf) nxt).
    { unfold nxt, _dynamics. destruct (step_dependency cf); now apply HF. }
    rewrite (assign_rows_same 1 (nx cf) nxt (le_n 1) Hn). cbn [rbind].
    destruct (IH nxt HF Hn) as (tl & E & HL & HS). rewrite E. cbn [rbind].
    exists (nxt :: tl). repeat split; [simpl; now rewrite HL|].
    now constructor.
Qed.

(** With a single state of dimension nx the state is repeated K times for
    the sampled rollouts, and the call returns the leading actions and the
    rollout of the updated U. *)
Lemma command_single_state_returns c v sample :
  wf c sample -> 1 <= nx (conf c) -> length v = nx (conf c) ->
  (forall s u ot, shape2 1 (nx (conf c)) s ->
                  shape2 1 (nx (conf c)) (F (conf c) s u ot)) ->
  initial_states (conf c) (T1 v) = repeat v (K (conf c)) /\
  exists traj,
    length traj = T (conf c) /\
    command (T1 v) sample c =
    (after_command c (T1 v) sample,
     Ok (returned_actions (conf c) (U (after_command c (T1 v) sample)),
         [traj])).
Proof.
  intros H Hnx Hv HF. split; [reflexivity|].
  rewrite (command_run c (T1 v) sample H).
  set (c' := after_command c (T1 v) sample).
  assert (Hvc : view_cols (nx (conf c')) v = Ok (@cons vec v [])).
  { unfold view_cols. cbn [c' after_command conf]. rewrite Hv.
    replace (nx (conf c) =? 0) with false
      by (symmetry; apply Nat.eqb_neq; lia).
    rewrite Nat.Div0.mod_same, Nat.div_same by lia. cbn [Nat.eqb].
    unfold chunks. cbn [seq map Nat.mul skipn].
    rewrite <- Hv. now rewrite firstn_all. }
  change (list scalar) with vec in *.
  assert (Hs : shape2 1 (nx (conf c')) [v]).
  { split; [reflexivity|]. constructor; [exact Hv|constructor]. }
  destruct (replay_single (conf c')
              (combine (seq 0 (length (U c'))) (U c')) [v] HF Hs)
    as (tl & E & HL & HS).
  assert (Hg : snd (get_rollouts (T1 v) 1 c') = Ok [column [] 0 tl]).
  { unfold get_rollouts. mstep. cbn [flatten]. rewrite Hvc. mstep.
    cbn [length Nat.eqb repeat concat app].
    rewrite (assign_rows_same 1 _ [v] (le_n 1) Hs). mstep.
    rewrite E. mstep. reflexivity. }
  rewrite Hg. cbn [rbind].
  exists (column [] 0 tl). split; [|reflexivity].
  unfold column. rewrite length_map.
  etransitivity; [exact HL|].
  rewrite length_combine, length_seq, Nat.min_id.
  cbn [c' after_command U]. unfold updated. rewrite length_map, length_seq.
  exact (proj1 (shifted_shape _ _ H)).
Qed.

(** C5 at the failing input: [demo] has K = 2 and [two_states] is a batch of
    two states; the batch is used as it is for the sampled rollouts, U is
    updated, and the call raises instead of returning. *)
Theorem command_on_state_batch_raises :
  initial_states (conf demo) two_states = [[zero]; [zero]] /\
  snd (command two_states demo_sample demo) = Raise RuntimeError /\
  U (fst (command two_states demo_sample demo))
  = U (after_command demo two_states demo_sample).
Proof.
  split; [reflexivity|].
  rewrite (command_run _ _ _ demo_wf). split; reflexivity.
Qed.

(** ** Null-action sampling (C6) *)

Lemma zeros_like_repeat r n m :
  shape2 r n m -> zeros_like m = repeat (zeros n) r.
Proof.
  intros [Hl Hf]. subst r. induction Hf as [|row m Hr _ IH]; [reflexivity|].
  simpl. rewrite IH. f_equal. subst n. clear.
  induction row as [|x row IH]; [reflexivity|]. simpl. now rewrite IH.
Qed.

Lemma null_sampled_last cf P :
  sample_null_action cf = true -> 1 <= K cf -> length P = K cf ->
  nth (K cf - 1) (null_sampled cf P) [] = zeros_like (nth (K cf - 1) P []).
Proof.
  intros Hn HK HP. unfold null_sampled. rewrite Hn.
  rewrite app_nth2; rewrite length_firstn; [|lia].
  replace (K cf - 1 - Nat.min (K cf - 1) (length P)) with 0 by lia.
  reflexivity.
Qed.

Lemma map_nth_lt {A B} (f : A -> B) l d d' i :
  i < length l -> nth i (map f l) d' = f (nth i l d).
Proof.
  intros Hi. rewrite (nth_indep _ d' (f d)) by now rewrite length_map.
  apply map_nth.
Qed.

(** The claim of C6 fails as stated: with [u_init = 1] the last sample's
    perturbed actions before clamping are 0, not [u_init]. *)
Lemma null_action_counterexample :
  ~ (forall P0,
        sample_null_action (conf null_sampled_ctrl) = true ->
        perturb (conf null_sampled_ctrl) (shifted null_sampled_ctrl)
                zero_sample = Ok P0 ->
        nth (K (conf null_sampled_ctrl) - 1) P0 []
        = repeat (u_init (conf null_sampled_ctrl))
                 (T (conf null_sampled_ctrl))).
Proof.
  intros Hclaim. specialize (Hclaim _ eq_refl eq_refl).
  cbn in Hclaim. unfold zero, one in Hclaim.
  injection Hclaim as E. lra.
Qed.

(** C6 (amended): with null-action sampling enabled, the last of the K
    sampled trajectories has, before clamping, the action 0 at all T
    timesteps (which is [u_init] when [u_init] is left at its default of
    zero); the other samples stay [U + noise], and it is this batch that is
    clamped. *)
Theorem null_action_sample_is_zero c st sample :
  wf c sample ->
  sample_null_action (conf c) = true ->
  let cf := conf c in
  exists P0,
    perturb cf (shifted c) sample = Ok P0 /\
    length P0 = K cf /\
    nth (K cf - 1) P0 [] = repeat (zeros (nu cf)) (T cf) /\
    (u_init cf = zeros (nu cf) ->
     nth (K cf - 1) P0 [] = repeat (u_init cf) (T cf)) /\
    (forall i, i < K cf - 1 ->
               nth i P0 [] = madd (shifted c) (nth i sample [])) /\
    perturbed_action (fst (command st sample c))
    = Some (map (map (clamp_row (u_min cf) (u_max cf))) P0).
Proof.
  intros H Hn cf. subst cf.
  pose proof (shifted_shape _ _ H) as HU1.
  pose proof H as [_ HK _ _ [HS FS] _ _ _ _].
  exists (pre_clamp (conf c) (shifted c) sample).
  assert (HL : length (map (madd (shifted c)) sample) = K (conf c))
    by now rewrite length_map.
  assert (Hlast : nth (K (conf c) - 1) (pre_clamp (conf c) (shifted c) sample) []
                  = repeat (zeros (nu (conf c))) (T (conf c))).
  { unfold pre_clamp. rewrite null_sampled_last by assumption.
    apply zeros_like_repeat.
    rewrite (map_nth_lt (madd (shifted c)) sample [] [] (K (conf c) - 1))
      by lia.
    apply madd_shape; [exact HU1|].
    apply shape3_nth with (k := K (conf c)); [split; assumption|lia]. }
  repeat split.
  - now apply perturb_ok.
  - unfold pre_clamp. now apply null_sampled_length.
  - exact Hlast.
  - intros ->. exact Hlast.
  - intros i Hi. unfold pre_clamp, null_sampled. rewrite Hn.
    rewrite app_nth1 by (rewrite length_firstn; lia).
    rewrite nth_firstn.
    replace (i <? K (conf c) - 1) with true
      by (symmetry; apply Nat.ltb_lt; exact Hi).
    apply (map_nth_lt (madd (shifted c)) sample [] [] i). lia.
  - rewrite (command_run c st sample H). reflexivity.
Qed.

(** ** Control scale (C7) *)

Lemma rollout_loop_nth cf P n : forall a st t,
  t < n ->
  let run := rollout_loop cf P (seq a n) st in
  nth t (snd run) [] = mscale (u_scale cf) (column [] (a + t) P) /\
  nth t (fst run) []
  = _dynamics cf (match t with
                  | 0 => st
                  | S t' => nth t' (fst run) []
                  end)
              (mscale (u_scale cf) (column [] (a + t) P)) (a + t).
Proof.
  induction n as [|n IH]; intros a st t Ht; [lia|].
  cbn [seq rollout_loop fst snd].
  destruct t as [|t].
  - rewrite Nat.add_0_r. split; reflexivity.
  - cbn [nth].
    destruct (IH (S a)
                (_dynamics cf st (mscale (u_scale cf) (column [] a P)) a)
                t ltac:(lia)) as [I1 I2].
    cbn zeta in I1, I2. replace (a + S t) with (S a + t) by lia.
    split; [exact I1|]. rewrite I2. destruct t; reflexivity.
Qed.

Lemma stacked_scaled cf (P : batch) (ms : list mat) :
  1 <= T cf -> length ms = T cf ->
  (forall t, t < T cf ->
             nth t ms [] = mscale (u_scale cf) (column [] t P)) ->
  Forall (fun Pi : mat => length Pi = T cf) P ->
  stacked ms = bscale (u_scale cf) P.
Proof.
  intros HT HL Hnth HP.
  assert (Hms : ms = map (fun t => mscale (u_scale cf) (column [] t P))
                         (seq 0 (T cf))).
  { apply (nth_ext _ _ [] []).
    - now rewrite length_map, length_seq.
    - intros t Ht. unfold batch, mat, vec in *.
      rewrite HL in Ht. rewrite nth_map_seq by exact Ht.
      now apply Hnth. }
  clear Hnth HL. subst ms. unfold stacked.
  assert (Hhd : length (hd [] (map (fun t => mscale (u_scale cf)
                                               (column [] t P))
                                  (seq 0 (T cf)))) = length P).
  { destruct (T cf) as [|n]; [lia|]. cbn [seq map hd].
    unfold mscale, column. now rewrite !length_map. }
  rewrite Hhd.
  transitivity (map (fun i => mscale (u_scale cf) (nth i P []))
                    (seq 0 (length P))).
  - apply map_ext_in. intros i Hi. apply in_seq in Hi.
    assert (HPi : length (nth i P []) = T cf).
    { rewrite Forall_forall in HP. apply HP, nth_In.
      unfold batch, mat, vec in *; lia. }
    unfold column at 1. rewrite map_map.
    transitivity (map (fun t => vscale (u_scale cf) (nth t (nth i P []) []))
                      (seq 0 (T cf))).
    + apply map_ext_in. intros t Ht. unfold mscale, column.
      rewrite (map_nth_lt (vscale (u_scale cf)) _ [] [] i)
        by (rewrite length_map; unfold batch, mat, vec in *; lia).
      f_equal.
      apply (map_nth_lt (fun row : mat => nth t row []) P [] [] i).
      unfold batch, mat, vec in *; lia.
    + rewrite <- HPi.
      rewrite <- (map_map (fun t => nth t (nth i P []) [])
                          (vscale (u_scale cf))).
      now rewrite map_nth_seq.
  - rewrite <- (map_map (fun i => nth i P []) (mscale (u_scale cf))).
    now rewrite map_nth_seq.
Qed.

(** What [_compute_total_cost_batch] hands to the boundaries, for a
    well-formed controller. *)
Lemma boundaries_see_scaled_actions c st sample :
  wf c sample ->
  let cf := conf c in
  let P := clamped cf (shifted c) sample in
  let xs := fst (run_of cf (shifted c) st sample) in
  let us := snd (run_of cf (shifted c) st sample) in
  length xs = T cf /\ length us = T cf /\
  (forall t, t < T cf -> nth t us [] = mscale (u_scale cf) (column [] t P)) /\
  (forall t, t < T cf ->
     nth t xs [] = _dynamics cf (match t with
                                 | 0 => initial_states cf st
                                 | S t' => nth t' xs []
                                 end) (nth t us []) t) /\
  stacked us = bscale (u_scale cf) P.
Proof.
  intros H cf P xs us.
  pose proof H as [HT HK _ _ HS (lo & Hlo & Ll) (hi & Hhi & Lh) _ _].
  destruct (rollout_loop_length cf P (seq 0 (T cf)) (initial_states cf st))
    as [L1 L2].
  rewrite length_seq in L1, L2.
  assert (Hus : forall t, t < T cf ->
                  nth t us [] = mscale (u_scale cf) (column [] t P)).
  { intros t Ht.
    exact (proj1 (rollout_loop_nth cf P (T cf) 0 (initial_states cf st) t Ht)). }
  repeat split; try assumption.
  - intros t Ht. rewrite (Hus t Ht).
    exact (proj2 (rollout_loop_nth cf P (T cf) 0 (initial_states cf st) t Ht)).
  - apply stacked_scaled; auto.
    destruct (clamped_shape cf (shifted c) sample lo hi HK
                (shifted_shape _ _ H) HS Hlo Ll Hhi Lh) as [_ HF].
    eapply Forall_impl; [|exact HF]. intros Pi [HPi _]. exact HPi.
Qed.

(** The claim of C7 fails as stated: with control scale 2 and a cost boundary
    that returns the sum of the actions it is given, the total cost is not
    the one the unscaled perturbed actions would give. *)
Lemma cost_sees_scaled_counterexample :
  ~ (forall tc P S,
        trajectory_cost (conf scaled) = Some tc ->
        perturbed_action (fst (command demo_state unit_sample scaled)) = Some P ->
        states (fst (command demo_state unit_sample scaled)) = Some S ->
        cost_total (fst (command demo_state unit_sample scaled))
        = Some (vadd (vadd (zeros (K (conf scaled))) (tc S P))
                     (perturbation_cost_of (conf scaled) (shifted scaled)
                                           unit_sample))).
Proof.
  intros Hclaim.
  pose proof (command_run _ demo_state _ scaled_wf) as Hrun.
  assert (Hp : perturbed_action (fst (command demo_state unit_sample scaled))
               = Some (clamped (conf scaled) (shifted scaled) unit_sample))
    by now rewrite Hrun.
  assert (Hs : states (fst (command demo_state unit_sample scaled))
               = Some (stacked (fst (run_of (conf scaled) (shifted scaled)
                                            demo_state unit_sample))))
    by now rewrite Hrun.
  specialize (Hclaim sum_of_actions _ _ eq_refl Hp Hs).
  rewrite Hrun in Hclaim. cbn [fst after_command cost_total] in Hclaim.
  cbn in Hclaim. unfold zero, one in Hclaim.
  injection Hclaim as E. revert E.
  unfold Rmin, Rmax. repeat destruct (Rle_dec _ _); intros E; lra.
Qed.

(** C7 (amended): at each timestep the dynamics boundary is invoked with the
    perturbed action multiplied by the control scale; the action sequences
    handed to the cost boundary are these same scaled actions; the scale is
    divided out only afterwards, in the actions the controller keeps. *)
Theorem dynamics_and_cost_get_scaled_actions c st sample :
  wf c sample ->
  let cf := conf c in
  let c' := fst (command st sample c) in
  exists P xs us,
    perturbed_action c' = Some P /\
    length xs = T cf /\ length us = T cf /\
    (forall t, t < T cf -> nth t us [] = mscale (u_scale cf) (column [] t P)) /\
    (forall t, t < T cf ->
       nth t xs [] = _dynamics cf (match t with
                                   | 0 => initial_states cf st
                                   | S t' => nth t' xs []
                                   end) (nth t us []) t) /\
    states c' = Some (stacked xs) /\
    stacked us = bscale (u_scale cf) P /\
    cost_total c'
    = Some (vadd (match trajectory_cost cf with
                  | Some tc => vadd (zeros (K cf))
                                    (tc (stacked xs) (bscale (u_scale cf) P))
                  | None => zeros (K cf)
                  end)
                 (perturbation_cost_of cf (shifted c) sample)) /\
    actions c' = Some (bdiv (bscale (u_scale cf) P) (u_scale cf)).
Proof.
  intros H cf c'. subst c'.
  destruct (boundaries_see_scaled_actions c st sample H)
    as (L1 & L2 & Hus & Hxs & Hst).
  rewrite (command_run c st sample H).
  cbn [fst after_command perturbed_action states cost_total actions].
  fold cf in L1, L2, Hus, Hxs, Hst |- *.
  eexists _, _, _. split; [reflexivity|].
  split; [exact L1|]. split; [exact L2|]. split; [exact Hus|].
  split; [exact Hxs|]. split; [reflexivity|]. split; [exact Hst|].
  split.
  - unfold total_cost_of, trajectory_cost_of. fold cf. now rewrite Hst.
  - now rewrite Hst.
Qed.

(** ** Bounds set by the constructor (C8) *)

Lemma fle_neg_self x : fle (fneg x) x <-> fle zero x.
Proof. destruct x; simpl; try tauto. split; intros; lra. Qed.

Lemma fle_self_neg x : fle x (fneg x) <-> fle x zero.
Proof. destruct x; simpl; try tauto. split; intros; lra. Qed.

Lemma Forall2_neg_l hi :
  Forall2 fle (map fneg hi) hi <-> Forall (fle zero) hi.
Proof.
  induction hi as [|x hi IH]; simpl.
  - split; constructor.
  - split; intros H; inversion H; subst; constructor;
      try apply fle_neg_self; try apply IH; assumption.
Qed.

Lemma Forall2_neg_r lo :
  Forall2 fle lo (map fneg lo) <-> Forall (fun x => fle x zero) lo.
Proof.
  induction lo as [|x lo IH]; simpl.
  - split; constructor.
  - split; intros H; inversion H; subst; constructor;
      try apply fle_self_neg; try apply IH; assumption.
Qed.

Lemma init_bounds_fields dyn cost nx0 sigma k t lam mu umin umax uinit Uinit
    s per step null abs sinv Us c :
  init dyn cost nx0 sigma k t lam mu umin umax uinit Uinit s per step null abs
       sinv Us = Ok c ->
  (u_min (conf c), u_max (conf c)) = init_bounds umin umax.
Proof.
  unfold init.
  destruct (if _ =? 1 then _ else _) as [sigma1|e]; cbn [rbind];
    [|discriminate].
  intros E. injection E as <-. cbn [conf u_min u_max].
  symmetry. apply surjective_pairing.
Qed.

(** The claim of C8 fails as stated: from [u_max = -1] alone the constructor
    derives [u_min = 1], which is above [u_max]. *)
Lemma derived_bounds_counterexample :
  ~ (forall c lo hi,
        init hold None 1 (T2 [[one]]) 1 1 one None None (Some [Fin (-1)]) None
             (Some [[zero]]) one 1 false false false [[one]] [[zero]] = Ok c ->
        u_min (conf c) = Some lo -> u_max (conf c) = Some hi ->
        Forall2 fle lo hi).
Proof.
  intros Hclaim.
  specialize (Hclaim negative_max [Fin 1] [Fin (-1)] negative_max_init
                eq_refl eq_refl).
  inversion Hclaim as [|? ? ? ? Hle _]; subst. simpl in Hle. lra.
Qed.

(** C8 (amended): the constructor checks no order between the bounds.  When
    only one side is supplied the other is its elementwise negation, and the
    pair satisfies [u_min <= u_max] elementwise exactly when the supplied
    [u_max] is nowhere below zero (the supplied [u_min] nowhere above zero);
    when both sides are supplied they are kept as given. *)
Theorem constructor_bounds dyn cost nx0 sigma k t lam mu umin umax uinit Uinit
    s per step null abs sinv Us c :
  init dyn cost nx0 sigma k t lam mu umin umax uinit Uinit s per step null abs
       sinv Us = Ok c ->
  (forall hi, umin = None -> umax = Some hi ->
     u_min (conf c) = Some (map fneg hi) /\ u_max (conf c) = Some hi /\
     (Forall2 fle (map fneg hi) hi <-> Forall (fle zero) hi)) /\
  (forall lo, umin = Some lo -> umax = None ->
     u_min (conf c) = Some lo /\ u_max (conf c) = Some (map fneg lo) /\
     (Forall2 fle lo (map fneg lo) <-> Forall (fun x => fle x zero) lo)) /\
  (forall lo hi, umin = Some lo -> umax = Some hi ->
     u_min (conf c) = Some lo /\ u_max (conf c) = Some hi) /\
  (umin = None -> umax = None ->
     u_min (conf c) = None /\ u_max (conf c) = None).
Proof.
  intros E. apply init_bounds_fields in E.
  repeat apply conj; intros; subst umin umax; cbn in E;
    injection E as E1 E2; repeat apply conj; try assumption;
    first [ apply Forall2_neg_l | apply Forall2_neg_r ].
Qed.

(** ** Rollout replay (C9) *)

(** C9: [get_rollouts] leaves the controller as it found it, U included,
    whatever the state argument and the number of rollouts, also when it
    raises; a second call with the same arguments gives the same result. *)
Theorem get_rollouts_changes_nothing st num_rollouts c :
  fst (get_rollouts st num_rollouts c) = c /\
  U (fst (get_rollouts st num_rollouts c)) = U c /\
  snd (get_rollouts st num_rollouts (fst (get_rollouts st num_rollouts c)))
  = snd (get_rollouts st num_rollouts c).
Proof.
  pose proof (get_rollouts_frame st num_rollouts c) as E.
  rewrite E. repeat split.
Qed.

(** ** A weight of 0 *)






(** With a temperature below 0 the exponential leaves the range on the
    other side: the sum of the unnormalized weights is infinite and a weight
    is NaN. *)
Lemma spread_negative_wf : wf spread_negative still_sample.
Proof.
  constructor;
    [ cbn; lia | cbn; lia | split; [reflexivity | repeat constructor]
    | reflexivity | split; [reflexivity | repeat constructor]
    | eexists; split; reflexivity | eexists; split; reflexivity
    | cbn; intros E; injection E; lra
    | intros tc E; injection E as <-; reflexivity ].
Qed.

Lemma spread_negative_costs :
  total_cost_of (conf spread_negative) (shifted spread_negative) demo_state
                still_sample
  = map Fin [0%R; 1000%R].
Proof.
  cbn. apply f_equal2; [apply f_equal; real_eq|].
  apply f_equal2; [apply f_equal; real_eq|reflexivity].
Qed.

Lemma negative_temperature_weights :
  omega (fst (command_with torch_exp demo_state still_sample
                           spread_negative))
  = Some [Fin 0; NaN].
Proof.
  rewrite (command_with_state _ _ _ _ spread_negative_wf).
  cbn [after_command_with omega]. rewrite spread_negative_costs.
  apply f_equal.
  unfold omega_with, non_zero_with, _ensure_non_zero_with.
  cbn.
  assert (E0 : (- (1 / -1) * (0 + - Rmin 0 1000) = 0)%R) by real_eq.
  assert (E1 : (- (1 / -1) * (1000 + - Rmin 0 1000) = 1000)%R) by real_eq.
  rewrite E0, E1.
  destruct (Rlt_dec 0 (-746)) as [F|_]; [lra|].
  destruct (Rlt_dec 710 0) as [F|_]; [lra|].
  destruct (Rlt_dec 1000 (-746)) as [F|_]; [lra|].
  destruct (Rlt_dec 710 1000) as [_|F]; [|lra].
  rewrite exp_0. cbn.
  apply f_equal2; [apply f_equal; ring|].
  apply f_equal2; [|reflexivity].
  unfold inf_times.
  destruct (Rlt_dec 0 0) as [F|_]; [lra|reflexivity].
Qed.

(** ** The theorems at concrete inputs *)


Lemma demo_costs :
  cost_total (fst (command demo_state demo_sample demo))
  = Some (map Fin [0%R; 1%R]).
Proof.
  rewrite (command_run _ _ _ demo_wf).
  cbn [fst after_command cost_total]. cbn.
  apply f_equal. apply f_equal2; [apply f_equal; real_eq|].
  apply f_equal2; [apply f_equal; real_eq|reflexivity].
Defined.

Lemma importance_weights_normalised_witness :
  wf demo demo_sample /\ lambda_ (conf demo) = Fin 1 /\
  cost_total (fst (command demo_state demo_sample demo))
  = Some (map Fin [0%R; 1%R]) /\
  fsum (map (fun r => Fin (weight 1 [0; 1] r / eta 1 [0; 1])%R) [0%R; 1%R])
  = Fin 1.
Proof.
  assert (H : wf demo demo_sample) by wf_tac.
  pose proof demo_costs as Hc.
  destruct (importance_weights_normalised demo demo_state demo_sample 1
              [0%R; 1%R] H eq_refl Hc) as (_ & _ & _ & _ & Hs & _).
  split; [exact H|]. split; [reflexivity|]. split; [exact Hc|exact Hs].
Defined.


Lemma clamped_actions_within_bounds_witness :
  wf demo demo_sample /\ Forall2 fle [Fin (-1)] [Fin 1] /\
  exists P, perturbed_action (fst (command demo_state demo_sample demo))
            = Some P /\
            Forall (Forall (within [Fin (-1)] [Fin 1])) P.
Proof.
  assert (H : wf demo demo_sample) by wf_tac.
  assert (Hle : Forall2 fle [Fin (-1)] [Fin 1])
    by (repeat constructor; simpl; lra).
  assert (Hn : forall P0,
             perturb (conf demo) (shifted demo) demo_sample = Ok P0 ->
             all_entries (fun x => ~ is_nan x) P0).
  { intros P0 E. cbn in E. injection E as <-.
    repeat constructor; exact (fun f => f). }
  destruct (clamped_actions_within_bounds demo demo_state demo_sample
              [Fin (-1)] [Fin 1] H eq_refl eq_refl Hle Hn)
    as (P & N & om & HP & _ & HW & _).
  split; [exact H|]. split; [exact Hle|]. exists P. split; assumption.
Defined.

Lemma nan_cost_is_folded_into_U_witness :
  wf nan_costed zero_sample /\
  cost_total (fst (command demo_state zero_sample nan_costed)) = Some [NaN] /\
  In NaN [NaN] /\
  U (fst (command demo_state zero_sample nan_costed)) = [[NaN]].
Proof.
  assert (H : wf nan_costed zero_sample) by wf_tac.
  assert (Hc : cost_total (fst (command demo_state zero_sample nan_costed))
               = Some [NaN]).
  { rewrite (command_run _ _ _ H). reflexivity. }
  destruct (nan_cost_is_folded_into_U nan_costed demo_state zero_sample
              [NaN] H Hc (or_introl eq_refl))
    as (N & _ & _ & _ & HU & _).
  split; [exact H|]. split; [exact Hc|]. split; [now left|exact HU].
Defined.

Lemma null_action_sample_is_zero_witness :
  wf null_sampled_ctrl zero_sample /\
  sample_null_action (conf null_sampled_ctrl) = true /\
  exists P0, perturb (conf null_sampled_ctrl) (shifted null_sampled_ctrl)
                     zero_sample = Ok P0 /\
             nth 0 P0 [] = [[zero]].
Proof.
  assert (H : wf null_sampled_ctrl zero_sample) by wf_tac.
  destruct (null_action_sample_is_zero null_sampled_ctrl demo_state
              zero_sample H eq_refl)
    as (P0 & HP & _ & Hz & _).
  split; [exact H|]. split; [reflexivity|]. exists P0. split; assumption.
Defined.

Lemma dynamics_and_cost_get_scaled_actions_witness :
  wf scaled unit_sample /\
  exists P, perturbed_action (fst (command demo_state unit_sample scaled))
            = Some P /\
            actions (fst (command demo_state unit_sample scaled))
            = Some (bdiv (bscale (Fin 2) P) (Fin 2)).
Proof.
  assert (H : wf scaled unit_sample) by wf_tac.
  destruct (dynamics_and_cost_get_scaled_actions scaled demo_state
              unit_sample H)
    as (P & xs & us & HP & _ & _ & _ & _ & _ & _ & _ & HA).
  split; [exact H|]. exists P. split; assumption.
Defined.

Lemma constructor_bounds_witness :
  init hold None 1 (T2 [[one]]) 1 1 one None (Some [Fin (-1)]) None None
       (Some [[zero]]) one 1 false false false [[one]] [[zero]]
  = Ok derived_max /\
  u_max (conf derived_max) = Some (map fneg [Fin (-1)]).
Proof.
  assert (E : init hold None 1 (T2 [[one]]) 1 1 one None (Some [Fin (-1)])
                   None None (Some [[zero]]) one 1 false false false
                   [[one]] [[zero]] = Ok derived_max) by reflexivity.
  destruct (constructor_bounds _ _ _ _ _ _ _ _ _ _ _ _ _ _ _ _ _ _ _ _ E)
    as (_ & Hlo & _).
  split; [exact E|]. exact (proj1 (proj2 (Hlo _ eq_refl eq_refl))).
Defined.

(** * Further properties of the planner *)

(** ** The controller stays well formed *)

Lemma after_command_wf c st sample sample' :
  wf c sample ->
  shape3 (K (conf c)) (T (conf c)) (nu (conf c)) sample' ->
  wf (after_command c st sample) sample'.
Proof.
  intros H HS'.
  pose proof (shifted_shape _ _ H) as HU1.
  pose proof (eff_noise_shape_wf _ _ H) as HN.
  destruct H as [HT HK HU Hui HS Hlo Hhi Hlam Hcost].
  constructor; cbn [after_command conf U]; try assumption.
  now apply updated_shape with (k := K (conf c)).
Qed.

(** X1: a call of [command] on a well-formed controller leaves a well-formed
    controller: the configuration is untouched and U keeps its shape
    (T, nu), so the next call, with its own noise draw, runs to the update
    again. *)
Theorem command_keeps_controller_well_formed c st sample sample' :
  wf c sample ->
  shape3 (K (conf c)) (T (conf c)) (nu (conf c)) sample' ->
  conf (fst (command st sample c)) = conf c /\
  shape2 (T (conf c)) (nu (conf c)) (U (fst (command st sample c))) /\
  wf (fst (command st sample c)) sample'.
Proof.
  intros H HS'. rewrite (command_run c st sample H). cbn [fst].
  pose proof (after_command_wf c st sample sample' H HS') as Hw.
  split; [reflexivity|]. split; [|exact Hw].
  destruct Hw as [_ _ HU _ _ _ _ _ _]. exact HU.
Qed.

(** ** What a call of [command] depends on *)

Lemma command_depends_on c1 c2 st sample :
  wf c1 sample -> wf c2 sample ->
  conf c1 = conf c2 -> shifted c1 = shifted c2 ->
  command st sample c1 = command st sample c2.
Proof.
  intros H1 H2 Hc Hs.
  rewrite (command_run c1 st sample H1), (command_run c2 st sample H2).
  assert (E : after_command c1 st sample = after_command c2 st sample).
  { unfold after_command. now rewrite Hc, Hs. }
  now rewrite E, Hc.
Qed.

(** X2: [command] never uses the first row of the U it finds, nor anything
    the previous call stored ([state], [noise], [omega], the costs ...): two
    well-formed controllers with the same configuration whose U agree from
    the second row on give the same result and end in the same state. *)
Theorem command_ignores_first_row_and_leftovers c1 c2 st sample :
  wf c1 sample -> wf c2 sample ->
  conf c1 = conf c2 -> tl (U c1) = tl (U c2) ->
  command st sample c1 = command st sample c2.
Proof.
  intros H1 H2 Hc Ht. apply command_depends_on; try assumption.
  destruct H1 as [_ _ [L1 _] _ _ _ _ _ _], H2 as [HT _ [L2 _] _ _ _ _ _ _].
  destruct (U c1) as [|r1 rs1] eqn:E1; [simpl in L1; rewrite <- Hc in HT; lia|].
  destruct (U c2) as [|r2 rs2] eqn:E2; [simpl in L2; lia|].
  rewrite (shifted_eq c1 r1 rs1 E1), (shifted_eq c2 r2 rs2 E2).
  simpl in Ht. now rewrite Ht, Hc.
Qed.

(** X3: [reset] succeeds, replaces U by the fresh draw and changes nothing
    else: the configuration and every stored attribute ([state], [noise],
    [perturbed_action], the costs, [omega], [states], [actions]) are those
    of before.  What the next [command] does is then fixed by the
    configuration, the draw and the arguments: nothing of the plan or of the
    stored results before the reset is carried over. *)
Theorem reset_discards_previous_plan c1 c2 Us st sample :
  conf c1 = conf c2 ->
  wf (fst (reset Us c1)) sample ->
  let c' := fst (reset Us c1) in
  snd (reset Us c1) = Ok tt /\
  U c' = Us /\
  conf c' = conf c1 /\
  state c' = state c1 /\
  noise c' = noise c1 /\
  perturbed_action c' = perturbed_action c1 /\
  cost_total c' = cost_total c1 /\
  cost_total_non_zero c' = cost_total_non_zero c1 /\
  omega c' = omega c1 /\
  states c' = states c1 /\
  actions c' = actions c1 /\
  command st sample c' = command st sample (fst (reset Us c2)).
Proof.
  intros Hc H1 c'. subst c'. repeat apply conj; try reflexivity.
  assert (H2 : wf (fst (reset Us c2)) sample).
  { destruct H1 as [HT HK HU Hui HS Hlo Hhi Hlam Hcost].
    cbn [reset assign fst set_U conf U] in *.
    constructor; cbn [reset assign fst set_U conf U]; rewrite <- ?Hc;
      assumption. }
  apply command_depends_on; try assumption.
  unfold shifted. cbn [reset assign fst set_U conf U]. now rewrite Hc.
Qed.

(** ** Calls that raise before the update *)

Lemma set_last_shifted_raw c :
  1 <= T (conf c) -> shape2 (T (conf c)) (nu (conf c)) (U c) ->
  length (u_init (conf c)) = nu (conf c) ->
  set_last (roll_left (U c)) (u_init (conf c)) = Ok (shifted c).
Proof.
  intros HT1 [HT Hrows] Hu. unfold shifted, set_last.
  destruct (U c) as [|r rs]; [simpl in HT; lia|].
  simpl roll_left. rewrite rev_app_distr. simpl.
  inversion Hrows as [|? ? Hr Hrs]; subst.
  unfold broadcast_vec. rewrite Hu, Hr, Nat.eqb_refl. reflexivity.
Qed.

Lemma total_cost_length_raw cf U1 st sample :
  1 <= T cf -> 1 <= K cf -> length sample = K cf ->
  (forall tc, trajectory_cost cf = Some tc ->
              forall S A, length A = K cf -> length (tc S A) = K cf) ->
  length (total_cost_of cf U1 st sample) = K cf.
Proof.
  intros HT HK HS Hcost.
  unfold total_cost_of, vadd. rewrite map2_length.
  assert (H1 : length (trajectory_cost_of cf U1 st sample) = K cf).
  { unfold trajectory_cost_of.
    destruct (trajectory_cost cf) as [tc|] eqn:E.
    - unfold vadd. rewrite map2_length, (Hcost tc eq_refl).
      + unfold zeros. rewrite repeat_length. lia.
      + now apply stacked_actions_length.
    - unfold zeros. apply repeat_length. }
  assert (H2 : length (perturbation_cost_of cf U1 sample) = K cf).
  { unfold perturbation_cost_of, action_cost_of, bmatmul, bscale, eff_noise,
      clamped, pre_clamp.
    rewrite !length_map.
    destruct (noise_abs_cost cf); unfold babs; rewrite ?length_map;
      apply null_sampled_length; rewrite ?length_map; auto. }
  rewrite H1, H2. lia.
Qed.

(** X4: with a temperature of zero the call computes all the costs and then
    raises ZeroDivisionError at [1 / lambda_]: U is left shifted and not
    updated, the new costs are stored, and [omega] is still the one of the
    call before. *)
Theorem command_with_zero_temperature c st sample :
  1 <= T (conf c) -> 1 <= K (conf c) ->
  shape2 (T (conf c)) (nu (conf c)) (U c) ->
  length (u_init (conf c)) = nu (conf c) ->
  shape3 (K (conf c)) (T (conf c)) (nu (conf c)) sample ->
  (exists lo, u_min (conf c) = Some lo /\ length lo = nu (conf c)) ->
  (exists hi, u_max (conf c) = Some hi /\ length hi = nu (conf c)) ->
  (forall tc, trajectory_cost (conf c) = Some tc ->
              forall S A, length A = K (conf c) ->
                          length (tc S A) = K (conf c)) ->
  lambda_ (conf c) = Fin 0 ->
  snd (command st sample c) = Raise ZeroDivisionError /\
  U (fst (command st sample c)) = shifted c /\
  cost_total (fst (command st sample c))
  = Some (total_cost_of (conf c) (shifted c) st sample) /\
  omega (fst (command st sample c)) = omega c.
Proof.
  intros HT HK HU Hu [HS _] (lo & Hlo & _) _ Hcost Hlam.
  assert (Hb : u_min (conf c) <> None \/ u_max (conf c) <> None)
    by (left; rewrite Hlo; discriminate).
  pose proof (set_last_shifted_raw c HT HU Hu) as Hsl.
  pose proof (total_cost_length_raw (conf c) (shifted c) st sample
                HT HK HS Hcost) as HtcL.
  unfold command. mstep. mstep. rewrite Hsl. mstep. mstep. mstep.
  match goal with |- context [bind (_compute_total_cost_batch _) _ ?c1] =>
    assert (E1 := cost_batch_run c1 st sample HT HK HS eq_refl Hb);
    cbn [conf U cost_total_non_zero omega] in E1;
    rewrite (bind_ok _ _ _ _ _ E1); clear E1
  end.
  set (cost := total_cost_of (conf c) (shifted c) st sample) in *.
  assert (Hmin' : tmin cost = Ok (beta_of cost)).
  { destruct cost; [simpl in HtcL; lia|reflexivity]. }
  rewrite Hmin'. mstep. rewrite Hlam. unfold py_recip.
  destruct (Req_dec_T 0 0) as [_|Hne]; [|now elim Hne].
  rewrite bind_lift_raise. cbn [fst snd U cost_total omega].
  repeat apply conj; reflexivity.
Qed.

Lemma cost_batch_without_samples c st :
  1 <= T (conf c) -> K (conf c) = 0 -> state c = Some st ->
  (u_min (conf c) <> None \/ u_max (conf c) <> None) ->
  exists c' r,
    _compute_total_cost_batch [] c = (c', r) /\ U c' = U c /\
    omega c' = omega c /\
    r = if sample_null_action (conf c) then Raise IndexError else Ok [].
Proof.
  intros HT HK Hst Hb. unfold _compute_total_cost_batch.
  mstep. mstep. rewrite Hst. mstep. mstep. mstep.
  unfold perturb. cbn [map]. rewrite HK.
  destruct (sample_null_action (conf c)).
  - cbn [modify_item_pred modify_item length Nat.sub nth_error].
    rewrite bind_lift_raise. eexists _, _. repeat apply conj; reflexivity.
  - mstep. mstep.
    assert (Hc : clamp [] (u_min (conf c)) (u_max (conf c)) = Ok []).
    { unfold clamp.
      destruct (u_min (conf c)), (u_max (conf c)); try reflexivity.
      destruct Hb; congruence. }
    rewrite Hc. mstep. mstep. cbn [map]. mstep.
    destruct (T (conf c)) as [|n] eqn:ET; [lia|].
    cbn [seq rollout_loop fst snd]. mstep. mstep.
    cbn [stack1 column map mscale length seq]. mstep. mstep. mstep. mstep.
    unfold action_cost_of, bmatmul, bscale, babs.
    destruct (noise_abs_cost (conf c)); cbn [map];
      destruct (trajectory_cost (conf c)); repeat mstep;
      unfold ret; cbn [zeros repeat vadd map2];
      eexists _, _; repeat apply conj; reflexivity.
Qed.

(** X5: with no samples (K = 0) the call raises: IndexError at the write of
    the null action when [sample_null_action] is set, else RuntimeError at
    [torch.min] of the empty cost tensor.  U is left shifted and not updated
    and [omega] is untouched. *)
Theorem command_without_samples c st :
  1 <= T (conf c) -> K (conf c) = 0 ->
  shape2 (T (conf c)) (nu (conf c)) (U c) ->
  length (u_init (conf c)) = nu (conf c) ->
  (exists lo, u_min (conf c) = Some lo /\ length lo = nu (conf c)) ->
  (exists hi, u_max (conf c) = Some hi /\ length hi = nu (conf c)) ->
  (forall tc, trajectory_cost (conf c) = Some tc ->
              forall S A, length A = K (conf c) ->
                          length (tc S A) = K (conf c)) ->
  snd (command st [] c)
  = (if sample_null_action (conf c) then Raise IndexError
     else Raise RuntimeError) /\
  U (fst (command st [] c)) = shifted c /\
  omega (fst (command st [] c)) = omega c.
Proof.
  intros HT HK HU Hu (lo & Hlo & _) _ _.
  assert (Hb : u_min (conf c) <> None \/ u_max (conf c) <> None)
    by (left; rewrite Hlo; discriminate).
  pose proof (set_last_shifted_raw c HT HU Hu) as Hsl.
  unfold command. mstep. mstep. rewrite Hsl. mstep. mstep. mstep.
  match goal with |- context [bind (_compute_total_cost_batch _) _ ?c1] =>
    destruct (cost_batch_without_samples c1 st HT HK eq_refl Hb)
      as (c' & r & E & HU' & Hom & Hr)
  end.
  cbn [conf U omega] in HU', Hom, Hr. subst r.
  destruct (sample_null_action (conf c)).
  - rewrite (bind_raise _ _ _ _ _ E). cbn [fst snd].
    repeat apply conj; [reflexivity|exact HU'|exact Hom].
  - rewrite (bind_ok _ _ _ _ _ E). cbn [tmin]. rewrite bind_lift_raise.
    cbn [fst snd]. repeat apply conj; [reflexivity|exact HU'|exact Hom].
Qed.

(** ** What [command] returns *)

(** X6: for a single state of dimension nx and a dynamics boundary that maps
    one state to one state, [command] returns one rollout of length T and
    the leading actions of the updated U times [u_scale]: the first row
    alone, unwrapped, when [u_per_command] is 1, else the first
    [u_per_command] rows, or all T rows when [u_per_command] exceeds T. *)
Theorem command_returns_leading_actions c v sample :
  wf c sample -> 1 <= nx (conf c) -> length v = nx (conf c) ->
  (forall s u ot, shape2 1 (nx (conf c)) s ->
                  shape2 1 (nx (conf c)) (F (conf c) s u ot)) ->
  let cf := conf c in
  let U' := U (fst (command (T1 v) sample c)) in
  exists a traj,
    snd (command (T1 v) sample c) = Ok (a, [traj]) /\
    length traj = T cf /\
    (u_per_command cf = 1 -> a = T1 (vscale (u_scale cf) (nth 0 U' []))) /\
    (u_per_command cf <> 1 ->
     exists acts,
       a = T2 acts /\
       length acts = Nat.min (u_per_command cf) (T cf) /\
       forall i, i < length acts ->
                 nth i acts [] = vscale (u_scale cf) (nth i U' [])).
Proof.
  intros H Hnx Hv HF cf U'.
  destruct (command_single_state_returns c v sample H Hnx Hv HF)
    as (_ & traj & HL & E).
  subst U'. rewrite E. cbn [fst snd].
  set (U' := U (after_command c (T1 v) sample)).
  assert (HU' : length U' = T cf).
  { unfold U'. cbn [after_command U]. unfold updated.
    rewrite length_map, length_seq. exact (proj1 (shifted_shape _ _ H)). }
  eexists _, traj. split; [reflexivity|]. split; [exact HL|].
  unfold returned_actions. fold cf. split.
  - intros E1. rewrite E1. cbn [Nat.eqb]. do 2 f_equal.
    now destruct U'.
  - intros Hne. apply Nat.eqb_neq in Hne. rewrite Hne.
    eexists. split; [reflexivity|].
    unfold mscale. rewrite length_map, length_firstn. split.
    + unfold batch, mat, vec in *. now rewrite HU'.
    + intros i Hi.
      rewrite (map_nth_lt (vscale (u_scale cf)) _ [] [] i)
        by (rewrite length_firstn; exact Hi).
      rewrite nth_firstn.
      replace (i <? u_per_command cf) with true; [reflexivity|].
      symmetry. apply Nat.ltb_lt. lia.
Qed.

(** ** Rollout replay *)

Lemma replay_single_spec cf Us : forall cur,
  (forall s u ot, shape2 1 (nx cf) s -> shape2 1 (nx cf) (F cf s u ot)) ->
  shape2 1 (nx cf) cur ->
  exists tl, replay cf 1 Us cur = Ok tl /\ length tl = length Us /\
             Forall (shape2 1 (nx cf)) tl /\
             forall i, i < length Us ->
               nth i tl []
               = _dynamics cf (match i with
                               | 0 => cur
                               | S i' => nth i' tl []
                               end)
                           [vscale (u_scale cf) (snd (nth i Us (0, [])))]
                           (fst (nth i Us (0, []))).
Proof.
  induction Us as [|[t ut] Us IH]; intros cur HF Hcur.
  - exists []. repeat split; [constructor|]. intros i Hi. simpl in Hi. lia.
  - cbn [replay]. rewrite !view_one_row. cbn [rbind].
    destruct cur as [|row [|? ?]]; try (destruct Hcur as [Hc _]; discriminate).
    cbn [concat]. rewrite app_nil_r.
    set (nxt := _dynamics cf [row] (mscale (u_scale cf) [ut]) t).
    assert (Hn : shape2 1 (nx cf) nxt).
    { unfold nxt, _dynamics. destruct (step_dependency cf); now apply HF. }
    rewrite (assign_rows_same 1 (nx cf) nxt (le_n 1) Hn). cbn [rbind].
    destruct (IH nxt HF Hn) as (tl & E & HL & HS & Hrec).
    rewrite E. cbn [rbind].
    exists (nxt :: tl). split; [reflexivity|].
    split; [simpl; now rewrite HL|]. split; [now constructor|].
    intros [|i] Hi; [reflexivity|].
    cbn [nth fst snd]. rewrite Hrec by (simpl in Hi; lia).
    now destruct i.
Qed.

(** X7: [get_rollouts] with a single state replays the nominal sequence:
    starting from the given state, step t applies the dynamics boundary to
    the state reached so far and to row t of U times [u_scale]; the result
    is the one trajectory of the T states reached, without the initial
    state, and the controller is unchanged. *)
Theorem get_rollouts_replays_nominal c v :
  1 <= nx (conf c) -> length v = nx (conf c) ->
  (forall s u ot, shape2 1 (nx (conf c)) s ->
                  shape2 1 (nx (conf c)) (F (conf c) s u ot)) ->
  exists xs : list mat,
    length xs = length (U c) /\
    (forall t, t < length (U c) ->
       nth t xs []
       = _dynamics (conf c) (match t with
                             | 0 => [v]
                             | S t' => nth t' xs []
                             end)
                   [vscale (u_scale (conf c)) (nth t (U c) [])] t) /\
    get_rollouts (T1 v) 1 c = (c, Ok [map (fun x => nth 0 x []) xs]).
Proof.
  intros Hnx Hv HF.
  assert (Hvc : view_cols (nx (conf c)) v = Ok (@cons vec v [])).
  { unfold view_cols. rewrite Hv.
    replace (nx (conf c) =? 0) with false
      by (symmetry; apply Nat.eqb_neq; lia).
    rewrite Nat.Div0.mod_same, Nat.div_same by lia. cbn [Nat.eqb].
    unfold chunks. cbn [seq map Nat.mul skipn].
    rewrite <- Hv. now rewrite firstn_all. }
  assert (Hs : shape2 1 (nx (conf c)) [v]).
  { split; [reflexivity|]. constructor; [exact Hv|constructor]. }
  destruct (replay_single_spec (conf c)
              (combine (seq 0 (length (U c))) (U c)) [v] HF Hs)
    as (tl & E & HL & HS & Hrec).
  assert (HLc : length (combine (seq 0 (length (U c))) (U c)) = length (U c))
    by (rewrite length_combine, length_seq; apply Nat.min_id).
  exists tl. split; [now rewrite HL|]. split.
  - intros t Ht. rewrite Hrec by (rewrite HLc; exact Ht).
    assert (Hcn : nth t (combine (seq 0 (length (U c))) (U c)) (0, [])
                  = (nth t (seq 0 (length (U c))) 0, nth t (U c) []))
      by (apply combine_nth; apply length_seq).
    unfold batch, mat, vec in *. rewrite Hcn.
    cbn [fst snd]. now rewrite seq_nth.
  - change (list scalar) with vec in *.
    unfold get_rollouts. mstep. cbn [flatten]. rewrite Hvc. mstep.
    cbn [length Nat.eqb repeat concat app].
    rewrite (assign_rows_same 1 _ [v] (le_n 1) Hs). mstep.
    rewrite E. mstep. reflexivity.
Qed.

Lemma assign_rows_shape n nx0 (v m : mat) :
  rect v -> assign_rows n nx0 v = Ok m -> shape2 n nx0 m.
Proof.
  intros [c0 Hrect]. unfold assign_rows, ncols.
  destruct (length v =? 0) eqn:E0.
  - destruct (n =? 0) eqn:En; [|discriminate].
    intros E. injection E as <-. apply Nat.eqb_eq in En. subst n.
    split; [reflexivity|constructor].
  - destruct (((length v =? n) || (length v =? 1))
              && ((length (hd [] v) =? nx0) || (length (hd [] v) =? 1)))
      eqn:Ec; [|discriminate].
    intros E. injection E as <-.
    apply Nat.eqb_neq in E0.
    destruct v as [|r0 v']; [simpl in E0; lia|]. cbn [hd] in *.
    assert (Hr0 : length r0 = c0) by (inversion Hrect; assumption).
    set (rows := if length (r0 :: v') =? n then r0 :: v' else repeat r0 n).
    assert (Hrows : length rows = n /\ Forall (fun row => length row = c0) rows).
    { unfold rows. destruct (length (r0 :: v') =? n) eqn:En.
      - apply Nat.eqb_eq in En. split; assumption.
      - split; [apply repeat_length|].
        rewrite Forall_forall. intros x Hx. apply repeat_spec in Hx.
        now subst x. }
    destruct Hrows as [HL HF]. split; [now rewrite length_map|].
    rewrite Forall_map. eapply Forall_impl; [|exact HF].
    intros row Hrow. cbn beta. rewrite Hr0.
    destruct (c0 =? nx0) eqn:Eb.
    + apply Nat.eqb_eq in Eb. congruence.
    + apply repeat_length.
Qed.

Lemma view_rows_rect n flat m : view_rows n flat = Ok m -> rect m.
Proof.
  unfold view_rows. destruct (n =? 0) eqn:En; [discriminate|].
  destruct (length flat mod n =? 0); [|discriminate].
  intros E. injection E as <-. apply Nat.eqb_neq in En.
  exists (length flat / n). unfold chunks.
  rewrite Forall_map, Forall_forall. intros i Hi. apply in_seq in Hi.
  rewrite length_firstn, length_skipn.
  pose proof (Nat.Div0.mul_div_le (length flat) n). nia.
Qed.

Lemma mscale_rect s m : rect m -> rect (mscale s m).
Proof.
  intros [n Hn]. exists n. unfold mscale. rewrite Forall_map.
  eapply Forall_impl; [|exact Hn]. intros row Hrow.
  unfold vscale. now rewrite length_map.
Qed.

Lemma replay_shapes cf n Us : forall cur tl,
  (forall s u ot, rect s -> rect u -> rect (F cf s u ot)) ->
  replay cf n Us cur = Ok tl ->
  length tl = length Us /\ Forall (shape2 n (nx cf)) tl.
Proof.
  induction Us as [|[t ut] Us IH]; intros cur tl HF E.
  - injection E as <-. split; [reflexivity|constructor].
  - cbn [replay] in E.
    destruct (view_rows n (concat cur)) as [sv|] eqn:Es; [|discriminate].
    destruct (view_rows n ut) as [uv|] eqn:Eu; [|discriminate].
    cbn [rbind] in E.
    destruct (assign_rows n (nx cf) _) as [nxt|] eqn:Ea; [|discriminate].
    cbn [rbind] in E.
    destruct (replay cf n Us nxt) as [tl'|] eqn:Er; [|discriminate].
    cbn [rbind] in E. injection E as <-.
    destruct (IH nxt tl' HF Er) as [HL HS].
    split; [simpl; now rewrite HL|]. constructor; [|exact HS].
    refine (assign_rows_shape _ _ _ _ _ Ea).
    apply view_rows_rect in Es. apply view_rows_rect in Eu.
    unfold _dynamics.
    destruct (step_dependency cf); apply HF; auto using mscale_rect.
Qed.

(** X8: whenever [get_rollouts] returns, with a dynamics boundary that maps
    matrices to matrices, its result has the shape (num_rollouts, T, nx) of
    the docstring, T being the number of rows of U. *)
Theorem get_rollouts_result_shape st num_rollouts c r :
  (forall s u ot, rect s -> rect u -> rect (F (conf c) s u ot)) ->
  snd (get_rollouts st num_rollouts c) = Ok r ->
  shape3 num_rollouts (length (U c)) (nx (conf c)) r.
Proof.
  intros HF. unfold get_rollouts. mstep.
  destruct (view_cols (nx (conf c)) (flatten st)) as [rows|] eqn:Ev;
    [|rewrite bind_lift_raise; discriminate].
  mstep.
  destruct (assign_rows num_rollouts (nx (conf c)) _) as [s0|] eqn:Ea;
    [|rewrite bind_lift_raise; discriminate].
  mstep.
  destruct (replay (conf c) num_rollouts _ s0) as [tl|] eqn:Er;
    [|rewrite bind_lift_raise; discriminate].
  mstep. unfold ret. cbn [snd]. intros E. injection E as <-.
  destruct (replay_shapes _ _ _ _ _ HF Er) as [HL HS].
  rewrite length_combine, length_seq, Nat.min_id in HL.
  split; [now rewrite length_map, length_seq|].
  rewrite Forall_map, Forall_forall. intros i Hi. apply in_seq in Hi.
  unfold column. split; [now rewrite length_map|].
  rewrite Forall_map. eapply Forall_impl; [|exact HS].
  intros m Hm. apply shape2_nth with (r := num_rollouts); [exact Hm|lia].
Qed.

Lemma concat_repeat_one {A} (x : A) n : concat (repeat [x] n) = repeat x n.
Proof. induction n as [|n IH]; [reflexivity|]. simpl. now rewrite IH. Qed.

Lemma repeat_shape n m (v : vec) : length v = m -> shape2 n m (repeat v n).
Proof.
  intros Hv. split; [apply repeat_length|].
  rewrite Forall_forall. intros x Hx. apply repeat_spec in Hx. now subst x.
Qed.

(** X9: asking for several rollouts of a single state raises as soon as
    [num_rollouts] does not divide the control dimension (in particular for
    every [num_rollouts >= 2] when nu = 1): the row U[0] cannot be viewed as
    [num_rollouts] rows. *)
Theorem get_rollouts_several_raises c v num_rollouts :
  1 <= nx (conf c) -> length v = nx (conf c) ->
  2 <= num_rollouts ->
  U c <> [] -> shape2 (length (U c)) (nu (conf c)) (U c) ->
  nu (conf c) mod num_rollouts <> 0 ->
  get_rollouts (T1 v) num_rollouts c = (c, Raise RuntimeError).
Proof.
  intros Hnx Hv Hn Hne [_ HU] Hmod.
  assert (Hvc : view_cols (nx (conf c)) v = Ok (@cons vec v [])).
  { unfold view_cols. rewrite Hv.
    replace (nx (conf c) =? 0) with false
      by (symmetry; apply Nat.eqb_neq; lia).
    rewrite Nat.Div0.mod_same, Nat.div_same by lia. cbn [Nat.eqb].
    unfold chunks. cbn [seq map Nat.mul skipn].
    rewrite <- Hv. now rewrite firstn_all. }
  unfold get_rollouts. mstep. cbn [flatten]. rewrite Hvc. mstep.
  cbn [length Nat.eqb].
  match goal with |- context [assign_rows _ _ ?m] =>
    assert (Ha : assign_rows num_rollouts (nx (conf c)) m
                 = Ok (repeat v num_rollouts))
  end.
  { etransitivity;
      [apply f_equal; exact (concat_repeat_one v num_rollouts)|].
    apply assign_rows_same; [lia|now apply repeat_shape]. }
  rewrite Ha. mstep.
  destruct (U c) as [|u0 rest]; [congruence|].
  inversion HU as [|? ? Hu0 _]; subst.
  cbn [length seq combine replay].
  assert (E1 : exists sv, view_rows num_rollouts
                            (concat (repeat v num_rollouts)) = Ok sv).
  { unfold view_rows.
    replace (num_rollouts =? 0) with false
      by (symmetry; apply Nat.eqb_neq; lia).
    rewrite (concat_shape num_rollouts (nx (conf c)))
      by now apply repeat_shape.
    rewrite Nat.mul_comm, Nat.Div0.mod_mul. cbn [Nat.eqb]. eauto. }
  destruct E1 as (sv & ->). cbn [rbind].
  unfold view_rows at 1.
  replace (num_rollouts =? 0) with false
    by (symmetry; apply Nat.eqb_neq; lia).
  rewrite Hu0.
  replace (nu (conf c) mod num_rollouts =? 0) with false
    by (symmetry; apply Nat.eqb_neq; exact Hmod).
  cbn [rbind]. now rewrite bind_lift_raise.
Qed.

(** ** [_bound_action] and the clamp that replaced it *)

Lemma bound_scalar_is_clamp lo hi x :
  fle lo hi -> fmax (fmin x hi) lo = fmin (fmax x lo) hi.
Proof.
  destruct lo as [a| | |], hi as [b| | |], x as [x| | |]; simpl;
    intros Hle; try contradiction; try reflexivity;
    f_equal; unfold Rmin, Rmax; repeat destruct (Rle_dec _ _); lra.
Qed.

Lemma bound_row_is_clamp_row lo hi : forall row,
  Forall2 fle lo hi ->
  bound_row lo hi row = clamp_row (Some lo) (Some hi) row.
Proof.
  unfold bound_row, clamp_row. intros row H. revert row.
  induction H as [|a b lo hi Hab _ IH]; intros [|x row]; try reflexivity.
  cbn [map2]. now rewrite IH, (bound_scalar_is_clamp a b x Hab).
Qed.

Lemma bound_row_length lo hi row n :
  length row = n -> length lo = n -> length hi = n ->
  length (bound_row lo hi row) = n.
Proof. intros. unfold bound_row. rewrite !map2_length. lia. Qed.

Lemma map2_map_diag {A B C} (g : A -> B -> C) (h : A -> B) l :
  map2 g l (map h l) = map (fun x => g x (h x)) l.
Proof. induction l as [|x l IH]; [reflexivity|]. simpl. now rewrite IH. Qed.

Lemma bound_loop_rows cf lo hi ts : forall action,
  bound_loop cf lo hi ts action
  = map (fun row =>
           fold_left (fun r t =>
                        set_slice (_slice_control cf t) r
                          (bound_row lo hi (get_slice (_slice_control cf t) r)))
                     ts row)
        action.
Proof.
  induction ts as [|t ts IH]; intros action.
  - cbn. symmetry. apply map_id.
  - cbn [bound_loop fold_left]. rewrite IH, map_map, map2_map_diag, map_map.
    reflexivity.
Qed.

Lemma bound_slices cf lo hi : forall (rest done : mat),
  Forall (fun r => length r = nu cf) done ->
  Forall (fun r => length r = nu cf) rest ->
  length lo = nu cf -> length hi = nu cf ->
  fold_left (fun r t =>
               set_slice (_slice_control cf t) r
                 (bound_row lo hi (get_slice (_slice_control cf t) r)))
            (seq (length done) (length rest)) (concat (done ++ rest))
  = concat (done ++ map (bound_row lo hi) rest).
Proof.
  induction rest as [|x rest IH]; intros done Hd Hr Hlo Hhi;
    [reflexivity|].
  inversion Hr as [|? ? Hx Hr']; subst.
  cbn [length seq fold_left map].
  assert (Hcd : length (concat done) = length done * nu cf)
    by (apply concat_shape; split; [reflexivity|exact Hd]).
  assert (Hslice : get_slice (_slice_control cf (length done))
                     (concat (done ++ x :: rest)) = x).
  { unfold get_slice, _slice_control. cbn [fst snd].
    rewrite concat_app. cbn [concat].
    rewrite skipn_app, <- Hcd, skipn_all, Nat.sub_diag. cbn [app skipn].
    replace ((length done + 1) * nu cf - length (concat done))
      with (length x) by lia.
    rewrite firstn_app, Nat.sub_diag, firstn_all. cbn [firstn].
    apply app_nil_r. }
  rewrite Hslice.
  assert (Hset : set_slice (_slice_control cf (length done))
                   (concat (done ++ x :: rest)) (bound_row lo hi x)
                 = concat ((done ++ [bound_row lo hi x]) ++ rest)).
  { unfold set_slice, _slice_control. cbn [fst snd].
    rewrite !concat_app. cbn [concat]. rewrite app_nil_r.
    rewrite firstn_app, <- Hcd, firstn_all, Nat.sub_diag. cbn [firstn].
    rewrite app_nil_r.
    replace ((length done + 1) * nu cf)
      with (length (concat done) + length x) by lia.
    rewrite skipn_app.
    replace (length (concat done) + length x - length (concat done))
      with (length x) by lia.
    rewrite (skipn_all2 (n := length (concat done) + length x) (concat done))
      by lia.
    rewrite skipn_app, skipn_all, Nat.sub_diag. cbn [app skipn].
    now rewrite <- app_assoc. }
  rewrite Hset.
  replace (S (length done)) with (length (done ++ [bound_row lo hi x]))
    by (rewrite length_app; simpl; lia).
  rewrite IH; try assumption.
  - now rewrite <- app_assoc.
  - apply Forall_app. split; [exact Hd|].
    constructor; [|constructor]. now apply bound_row_length.
Qed.

(** X10: on the flattened layout (K, T * nu) the loop of [_bound_action]
    over the slices [t * nu : (t + 1) * nu] bounds every timestep of every
    sample, and with [u_min <= u_max] in every dimension its result is the
    flattening of what [clamp] returns on the (K, T, nu) batch: the
    replaced method and the clamp agree there. *)
Theorem bound_action_agrees_with_clamp cf (P : batch) lo hi k :
  u_min cf = Some lo -> u_max cf = Some hi ->
  length lo = nu cf -> length hi = nu cf ->
  Forall2 fle lo hi ->
  shape3 k (T cf) (nu cf) P ->
  exists P',
    clamp P (u_min cf) (u_max cf) = Ok P' /\
    shape3 k (T cf) (nu cf) P' /\
    _bound_action cf (map (@concat scalar) P)
    = Bounded (map (@concat scalar) P').
Proof.
  intros Hlo Hhi Ll Lh Hle [HK HP].
  exists (map (map (clamp_row (Some lo) (Some hi))) P).
  split; [unfold clamp; now rewrite Hlo, Hhi|]. split.
  - split; [now rewrite length_map|]. rewrite Forall_map.
    eapply Forall_impl; [|exact HP]. intros m [Hm Fm].
    split; [now rewrite length_map|]. rewrite Forall_map.
    eapply Forall_impl; [|exact Fm]. intros row Hrow.
    now apply clamp_row_length.
  - unfold _bound_action. rewrite Hhi, Hlo. f_equal.
    rewrite bound_loop_rows, !map_map. apply map_ext_in.
    intros Pi HPi. rewrite Forall_forall in HP.
    destruct (HP Pi HPi) as [HT HF].
    pose proof (bound_slices cf lo hi Pi [] (Forall_nil _) HF Ll Lh) as E.
    cbn [length app] in E. unfold batch, mat, vec in *.
    rewrite HT in E. rewrite E. f_equal.
    apply map_ext. intros row. now apply bound_row_is_clamp_row.
Qed.

(** ** The constructor establishes what [command] relies on *)

(** X11: [__init__] stores K, T, nx and the temperature as given, reads nu
    off [noise_sigma], fills in a zero noise mean and a zero [u_init] of
    that length when none is given, keeps a given bound and completes a
    missing one by the negation of the other, takes U from [U_init] or from
    the draw, and leaves [state] and the results of a call unset; with a
    horizon and a sample count of at least one, arguments of these lengths,
    at least one bound and a temperature other than zero, the controller it
    returns is well formed for every noise draw of shape (K, T, nu). *)
Theorem init_establishes_well_formedness dyn cost nx0 sigma k t lam mu umin
    umax uinit Uinit s per step null abs sinv Us c sample :
  init dyn cost nx0 sigma k t lam mu umin umax uinit Uinit s per step null abs
       sinv Us = Ok c ->
  1 <= k -> 1 <= t -> lam <> Fin 0 ->
  (forall m, mu = Some m -> length m = sigma_nu sigma) ->
  (forall u, uinit = Some u -> length u = sigma_nu sigma) ->
  shape2 t (sigma_nu sigma) (match Uinit with Some U0 => U0 | None => Us end) ->
  (umin <> None \/ umax <> None) ->
  (forall b, umin = Some b -> length b = sigma_nu sigma) ->
  (forall b, umax = Some b -> length b = sigma_nu sigma) ->
  (forall tc, cost = Some tc ->
              forall S A, length A = k -> length (tc S A) = k) ->
  shape3 k t (sigma_nu sigma) sample ->
  K (conf c) = k /\ T (conf c) = t /\ nx (conf c) = nx0 /\
  nu (conf c) = sigma_nu sigma /\ lambda_ (conf c) = lam /\
  noise_mu (conf c)
  = match mu with Some m => m | None => zeros (sigma_nu sigma) end /\
  u_init (conf c)
  = match uinit with Some u => u | None => zeros (sigma_nu sigma) end /\
  u_min (conf c)
  = match umin, umax with
    | Some lo, _ => Some lo
    | None, Some hi => Some (map fneg hi)
    | None, None => None
    end /\
  u_max (conf c)
  = match umax, umin with
    | Some hi, _ => Some hi
    | None, Some lo => Some (map fneg lo)
    | None, None => None
    end /\
  U c = match Uinit with Some U0 => U0 | None => Us end /\
  state c = None /\ cost_total c = None /\ cost_total_non_zero c = None /\
  omega c = None /\ states c = None /\ actions c = None /\
  wf c sample.
Proof.
  intros E Hk Ht Hlam Hmu Hui HU Hb Hlo Hhi Hcost HS.
  unfold init in E. fold (sigma_nu sigma) in E.
  destruct (if sigma_nu sigma =? 1 then _ else _) as [sigma1|e];
    cbn [rbind] in E; [|discriminate].
  injection E as <-.
  cbn [conf U K T nx nu lambda_ noise_mu u_init u_min u_max state cost_total
       cost_total_non_zero omega states actions].
  assert (Hz : match uinit with
               | Some u => u
               | None => zeros (length match mu with
                                       | Some m => m
                                       | None => zeros (sigma_nu sigma)
                                       end)
               end
               = match uinit with
                 | Some u => u
                 | None => zeros (sigma_nu sigma)
                 end).
  { destruct uinit as [u|]; [reflexivity|]. f_equal.
    destruct mu as [m|]; [now apply Hmu|]. apply repeat_length. }
  split; [reflexivity|]. split; [reflexivity|]. split; [reflexivity|].
  split; [reflexivity|]. split; [reflexivity|]. split; [reflexivity|].
  split; [exact Hz|].
  split; [unfold init_bounds; cbn [fst]; now destruct umin, umax|].
  split; [unfold init_bounds; cbn [snd]; now destruct umin, umax|].
  split; [reflexivity|].
  split; [reflexivity|]. split; [reflexivity|]. split; [reflexivity|].
  split; [reflexivity|]. split; [reflexivity|]. split; [reflexivity|].
  constructor; cbn [conf U K T nu u_init u_min u_max lambda_ trajectory_cost];
    try assumption.
  - destruct uinit as [u|]; [now apply Hui|].
    unfold zeros. rewrite repeat_length.
    destruct mu as [m|]; [now apply Hmu|]. apply repeat_length.
  - unfold init_bounds. cbn [fst].
    destruct umin as [lo|].
    + destruct umax; eexists; (split; [reflexivity|now apply Hlo]).
    + destruct umax as [hi|]; [|destruct Hb; congruence].
      eexists. split; [reflexivity|]. rewrite length_map. now apply Hhi.
  - unfold init_bounds. cbn [snd].
    destruct umin as [lo|].
    + destruct umax as [hi|].
      * eexists. split; [reflexivity|now apply Hhi].
      * eexists. split; [reflexivity|]. rewrite length_map. now apply Hlo.
    + destruct umax as [hi|]; [|destruct Hb; congruence].
      eexists. split; [reflexivity|now apply Hhi].
Qed.

(** ** Equal costs *)

(** X12: when all the total costs of a call are finite and equal, every
    entry of the new U is the entry of the shifted U plus the sum over the
    samples of [1 / K] times the effective noise: the update is the plain
    average of the clamped perturbations. *)
Theorem equal_costs_average_the_noise c st sample l rs :
  wf c sample ->
  lambda_ (conf c) = Fin l ->
  cost_total (fst (command st sample c)) = Some (map Fin rs) ->
  (forall r, In r rs -> r = hd 0%R rs) ->
  exists N,
    noise (fst (command st sample c)) = Some N /\
    length N = K (conf c) /\
    forall t j, t < T (conf c) -> j < nu (conf c) ->
      nth j (nth t (U (fst (command st sample c))) []) zero
      = fadd (nth j (nth t (shifted c) []) zero)
             (fsum (map (fun Ni : mat =>
                           fmul (Fin (1 / INR (K (conf c))))
                                (nth j (nth t Ni []) zero)) N)).
Proof.
  intros H Hl Hc Heq.
  destruct (finite_costs_length c st sample rs H Hc) as [HL Hne].
  pose proof (shifted_shape _ _ H) as HU1.
  pose proof (eff_noise_shape_wf _ _ H) as [HNL HNF].
  revert Hc. rewrite (command_run c st sample H).
  cbn [fst after_command cost_total noise U]. intros Hc. injection Hc as Hc.
  rewrite Hc, Hl.
  exists (eff_noise (conf c) (shifted c) sample).
  split; [reflexivity|]. split; [exact HNL|].
  intros t j Ht Hj.
  assert (HNt : Forall (fun Ni : mat => length (nth t Ni []) = nu (conf c))
                       (eff_noise (conf c) (shifted c) sample)).
  { eapply Forall_impl; [|exact HNF]. intros Ni HNi.
    apply shape2_nth with (r := T (conf c)); assumption. }
  rewrite updated_nth by (destruct HU1 as [E _]; rewrite E; exact Ht).
  unfold vadd. rewrite (map2_nth fadd _ _ zero zero zero).
  - f_equal. rewrite weighted_noise_nth by assumption.
    rewrite omega_of_Fin by assumption.
    assert (Hom : map (fun r => Fin (weight l rs r / eta l rs)) rs
                  = map (fun _ => Fin (1 / INR (K (conf c)))) rs).
    { apply map_ext_in. intros r Hr. f_equal. rewrite <- HL.
      now apply omega_uniform. }
    rewrite Hom. f_equal.
    assert (HLN : length rs
                  = length (eff_noise (conf c) (shifted c) sample))
      by (rewrite HNL; exact HL).
    clear -HLN. revert HLN.
    generalize (eff_noise (conf c) (shifted c) sample) as N.
    induction rs as [|r rs IH]; intros [|Ni N] HLN; simpl in HLN;
      try discriminate; [reflexivity|].
    cbn [map map2]. f_equal. apply IH. lia.
  - rewrite (shape2_nth _ _ _ _ HU1 Ht). exact Hj.
  - rewrite weighted_noise_length by assumption. exact Hj.
Qed.

(** ** The further properties at concrete inputs *)

Lemma hold_keeps_shape cf :
  F cf = hold ->
  forall s u ot, shape2 1 (nx cf) s -> shape2 1 (nx cf) (F cf s u ot).
Proof. intros E s u ot Hs. rewrite E. exact Hs. Defined.

Lemma command_keeps_controller_well_formed_witness :
  wf demo demo_sample /\
  shape3 (K (conf demo)) (T (conf demo)) (nu (conf demo)) demo_sample /\
  wf (fst (command demo_state demo_sample demo)) demo_sample.
Proof.
  assert (H : wf demo demo_sample) by wf_tac.
  assert (HS : shape3 (K (conf demo)) (T (conf demo)) (nu (conf demo))
                      demo_sample)
    by (split; [reflexivity|repeat constructor]).
  split; [exact H|]. split; [exact HS|].
  exact (proj2 (proj2 (command_keeps_controller_well_formed
                         demo demo_state demo_sample demo_sample H HS))).
Defined.

Lemma command_ignores_first_row_and_leftovers_witness :
  wf demo demo_sample /\ wf demo_alt demo_sample /\
  conf demo = conf demo_alt /\ tl (U demo) = tl (U demo_alt) /\
  command demo_state demo_sample demo
  = command demo_state demo_sample demo_alt.
Proof.
  assert (H1 : wf demo demo_sample) by wf_tac.
  assert (H2 : wf demo_alt demo_sample) by wf_tac.
  split; [exact H1|]. split; [exact H2|].
  split; [reflexivity|]. split; [reflexivity|].
  exact (command_ignores_first_row_and_leftovers demo demo_alt demo_state
           demo_sample H1 H2 eq_refl eq_refl).
Defined.

Lemma reset_discards_previous_plan_witness :
  conf demo = conf demo_alt /\
  wf (fst (reset [[zero]; [zero]] demo)) demo_sample /\
  command demo_state demo_sample (fst (reset [[zero]; [zero]] demo))
  = command demo_state demo_sample (fst (reset [[zero]; [zero]] demo_alt)).
Proof.
  assert (H : wf (fst (reset [[zero]; [zero]] demo)) demo_sample) by wf_tac.
  split; [reflexivity|]. split; [exact H|].
  destruct (reset_discards_previous_plan demo demo_alt [[zero]; [zero]]
              demo_state demo_sample eq_refl H)
    as (_ & _ & _ & _ & _ & _ & _ & _ & _ & _ & _ & E).
  exact E.
Defined.

Lemma command_with_zero_temperature_witness :
  lambda_ (conf cold) = Fin 0 /\
  shape3 (K (conf cold)) (T (conf cold)) (nu (conf cold)) zero_sample /\
  snd (command demo_state zero_sample cold) = Raise ZeroDivisionError.
Proof.
  assert (HS : shape3 (K (conf cold)) (T (conf cold)) (nu (conf cold))
                      zero_sample)
    by (split; [reflexivity|repeat constructor]).
  split; [reflexivity|]. split; [exact HS|].
  refine (proj1 (command_with_zero_temperature cold demo_state zero_sample
                   _ _ _ _ HS _ _ _ eq_refl)).
  - cbn; lia.
  - cbn; lia.
  - split; [reflexivity|repeat constructor].
  - reflexivity.
  - eexists; split; reflexivity.
  - eexists; split; reflexivity.
  - intros tc E. discriminate E.
Defined.

Lemma command_without_samples_witness :
  K (conf sampleless) = 0 /\
  snd (command demo_state [] sampleless) = Raise RuntimeError /\
  U (fst (command demo_state [] sampleless)) = shifted sampleless.
Proof.
  split; [reflexivity|].
  refine ((fun H => conj (proj1 H) (proj1 (proj2 H)))
            (command_without_samples sampleless demo_state _ eq_refl _ _ _ _ _)).
  - cbn; lia.
  - split; [reflexivity|repeat constructor].
  - reflexivity.
  - eexists; split; reflexivity.
  - eexists; split; reflexivity.
  - intros tc E. discriminate E.
Defined.

Lemma command_returns_leading_actions_witness :
  wf demo demo_sample /\ length [zero] = nx (conf demo) /\
  exists a traj,
    snd (command (T1 [zero]) demo_sample demo) = Ok (a, [traj]) /\
    a = T1 (vscale (u_scale (conf demo))
                   (nth 0 (U (fst (command (T1 [zero]) demo_sample demo))) [])).
Proof.
  assert (H : wf demo demo_sample) by wf_tac.
  split; [exact H|]. split; [reflexivity|].
  destruct (command_returns_leading_actions demo [zero] demo_sample H
              (le_n 1) eq_refl (hold_keeps_shape (conf demo) eq_refl))
    as (a & traj & E & _ & H1 & _).
  exists a, traj. split; [exact E|]. exact (H1 eq_refl).
Defined.

Lemma get_rollouts_replays_nominal_witness :
  length [zero] = nx (conf demo) /\
  exists xs : list mat,
    length xs = 2 /\
    get_rollouts (T1 [zero]) 1 demo
    = (demo, Ok [map (fun x => nth 0 x []) xs]).
Proof.
  split; [reflexivity|].
  destruct (get_rollouts_replays_nominal demo [zero] (le_n 1) eq_refl
              (hold_keeps_shape (conf demo) eq_refl))
    as (xs & HL & _ & E).
  exists xs. split; assumption.
Defined.

Lemma get_rollouts_result_shape_witness :
  snd (get_rollouts demo_state 1 demo) = Ok [[[zero]; [zero]]] /\
  shape3 1 2 1 [[[zero]; [zero]]].
Proof.
  assert (E : snd (get_rollouts demo_state 1 demo) = Ok [[[zero]; [zero]]])
    by reflexivity.
  split; [exact E|].
  exact (get_rollouts_result_shape demo_state 1 demo _
           (fun s u ot Hs Hu => Hs) E).
Defined.

Lemma get_rollouts_several_raises_witness :
  nu (conf demo) mod 2 <> 0 /\
  get_rollouts (T1 [zero]) 2 demo = (demo, Raise RuntimeError).
Proof.
  assert (Hm : nu (conf demo) mod 2 <> 0) by (cbn; lia).
  split; [exact Hm|].
  refine (get_rollouts_several_raises demo [zero] 2 (le_n 1) eq_refl
            (le_n 2) _ _ Hm).
  - discriminate.
  - split; [reflexivity|repeat constructor].
Defined.

Lemma bound_action_agrees_with_clamp_witness :
  Forall2 fle [Fin (-1)] [Fin 1] /\
  shape3 2 (T (conf demo)) (nu (conf demo)) demo_sample /\
  exists P',
    clamp demo_sample (u_min (conf demo)) (u_max (conf demo)) = Ok P' /\
    _bound_action (conf demo) (map (@concat scalar) demo_sample)
    = Bounded (map (@concat scalar) P').
Proof.
  assert (Hle : Forall2 fle [Fin (-1)] [Fin 1])
    by (repeat constructor; simpl; lra).
  assert (HS : shape3 2 (T (conf demo)) (nu (conf demo)) demo_sample)
    by (split; [reflexivity|repeat constructor]).
  split; [exact Hle|]. split; [exact HS|].
  destruct (bound_action_agrees_with_clamp (conf demo) demo_sample
              [Fin (-1)] [Fin 1] 2 eq_refl eq_refl eq_refl eq_refl Hle HS)
    as (P' & Hc & _ & Hb).
  exists P'. split; assumption.
Defined.

Lemma init_establishes_well_formedness_witness :
  init hold None 1 (T2 [[one]]) 1 1 one None (Some [Fin (-1)]) None None
       (Some [[zero]]) one 1 false false false [[one]] [[zero]]
  = Ok derived_max /\
  u_max (conf derived_max) = Some (map fneg [Fin (-1)]) /\
  wf derived_max zero_sample.
Proof.
  assert (E : init hold None 1 (T2 [[one]]) 1 1 one None (Some [Fin (-1)])
                   None None (Some [[zero]]) one 1 false false false
                   [[one]] [[zero]] = Ok derived_max) by reflexivity.
  assert (Hlam : one <> Fin 0)
    by (unfold one; intros E0; injection E0; lra).
  assert (Hnone : forall v : vec, @None vec = Some v ->
                                  length v = sigma_nu (T2 [[one]]))
    by (intros v E0; discriminate E0).
  assert (HU : shape2 1 (sigma_nu (T2 [[one]])) [[zero]])
    by (split; [reflexivity|repeat constructor]).
  assert (Hb : Some [Fin (-1)] <> None \/ @None vec <> None)
    by (left; discriminate).
  assert (Hlo : forall b, Some [Fin (-1)] = Some b ->
                          length b = sigma_nu (T2 [[one]]))
    by (intros b E0; injection E0 as <-; reflexivity).
  assert (Hcost : forall tc, @None cost_fn = Some tc ->
                  forall (S A : batch), length A = 1 -> length (tc S A) = 1)
    by (intros tc E0; discriminate E0).
  assert (HS : shape3 1 1 (sigma_nu (T2 [[one]])) zero_sample)
    by (split; [reflexivity|repeat constructor]).
  destruct (init_establishes_well_formedness _ _ _ _ _ _ _ _ _ _ _ _ _ _ _
              _ _ _ _ _ zero_sample E (le_n 1) (le_n 1) Hlam Hnone Hnone HU
              Hb Hlo Hnone Hcost HS)
    as (_ & _ & _ & _ & _ & _ & _ & _ & Hmax & _ & _ & _ & _ & _ & _ & _
        & Hw).
  split; [exact E|]. split; [exact Hmax|exact Hw].
Defined.

Lemma costless_costs :
  cost_total (fst (command demo_state demo_sample costless))
  = Some (map Fin [0%R; 0%R]).
Proof.
  assert (H : wf costless demo_sample) by wf_tac.
  rewrite (command_run _ _ _ H).
  cbn [fst after_command cost_total]. cbn.
  apply f_equal. apply f_equal2; [apply f_equal; real_eq|].
  apply f_equal2; [apply f_equal; real_eq|reflexivity].
Defined.

Lemma equal_costs_average_the_noise_witness :
  wf costless demo_sample /\ lambda_ (conf costless) = Fin 1 /\
  cost_total (fst (command demo_state demo_sample costless))
  = Some (map Fin [0%R; 0%R]) /\
  exists N,
    noise (fst (command demo_state demo_sample costless)) = Some N /\
    nth 0 (nth 0 (U (fst (command demo_state demo_sample costless))) []) zero
    = fadd (nth 0 (nth 0 (shifted costless) []) zero)
           (fsum (map (fun Ni : mat =>
                         fmul (Fin (1 / INR 2)) (nth 0 (nth 0 Ni []) zero))
                      N)).
Proof.
  assert (H : wf costless demo_sample) by wf_tac.
  pose proof costless_costs as Hc.
  assert (Heq : forall r, In r [0%R; 0%R] -> r = hd 0%R [0%R; 0%R]).
  { intros r [<-|[<-|[]]]; reflexivity. }
  destruct (equal_costs_average_the_noise costless demo_state demo_sample 1
              [0%R; 0%R] H eq_refl Hc Heq) as (N & HN & _ & Hav).
  split; [exact H|]. split; [reflexivity|]. split; [exact Hc|].
  exists N. split; [exact HN|]. apply (Hav 0 0); cbn; lia.
Defined.
